(** * qiling/extensions/r2/r2.py: the typed views over the analysis engine

    A shallow embedding of [qiling/extensions/r2/r2.py]: the record
    constructors ([R2Data.__init__] and its two overrides), the permission
    conversion [Section.perm2uc], the analysis gate [R2.aaa] with the cached
    views it guards, and the address resolver ([R2.at], [R2.resolve],
    [R2.refrom], [R2.refto]) together with the standard library's
    [bisect.bisect_right] it calls.

    Python integers are unbounded, hence [Z]; a [dict] whose iteration order
    is never observed is a [gmap]; a [dict] whose [values()] are listed is an
    association list in insertion order; an exception is a value of [exn]
    carried by [result]. *)

From stdpp Require Import base option list strings gmap fin_maps pretty.
From Stdlib Require Import Ascii ZArith Lia Sorted.
From Stdlib.Strings Require Byte.

Local Open Scope string_scope.
Local Open Scope Z_scope.

(** ** Exceptions *)

Inductive exn : Type :=
  | TypeError
  | KeyError
  | AttributeError
  | IndexError
  | JSONDecodeError.

Inductive result (A : Type) : Type :=
  | Ok (a : A)
  | Raise (e : exn).
Arguments Ok {A} a.
Arguments Raise {A} e.

#[global] Instance result_ret : MRet result := fun A a => Ok a.

#[global] Instance result_bind : MBind result := fun A B k r =>
  match r with
  | Ok a => k a
  | Raise e => Raise e
  end.

(** [[k(x) for x in l]], stopping at the first exception. *)
Fixpoint for_each {A B} (k : A -> result B) (l : list A) : result (list B) :=
  match l with
  | [] => Ok []
  | x :: l' => y ← k x; ys ← for_each k l'; Ok (y :: ys)
  end.

(** ** The permission constants of [unicorn]

    [r2.py] imports [UC_PROT_NONE], [UC_PROT_READ], [UC_PROT_WRITE] and
    [UC_PROT_EXEC] from [unicorn]; their values are not part of this
    repository, so the development is parametric in them. *)

Class UcProt : Type := {
  UC_PROT_NONE : Z;
  UC_PROT_READ : Z;
  UC_PROT_WRITE : Z;
  UC_PROT_EXEC : Z
}.

(** What [unicorn] guarantees of them: no permission is the empty mask, and
    the three permissions are bits of their own. *)
Class UcProtBits (uc : UcProt) : Prop := {
  uc_none : UC_PROT_NONE = 0;
  uc_read_write : Z.land UC_PROT_READ UC_PROT_WRITE = 0;
  uc_read_exec : Z.land UC_PROT_READ UC_PROT_EXEC = 0;
  uc_write_exec : Z.land UC_PROT_WRITE UC_PROT_EXEC = 0
}.

(** The values of [unicorn_const.py]. *)
Definition unicorn : UcProt :=
  {| UC_PROT_NONE := 0; UC_PROT_READ := 1; UC_PROT_WRITE := 2; UC_PROT_EXEC := 4 |}.

(** ** [Section.perm2uc] *)

(** [for ch in permstr]: a Python string iterates as its one-character
    strings. *)
Fixpoint chars (s : string) : list string :=
  match s with
  | EmptyString => []
  | String c s' => String c EmptyString :: chars s'
  end.

Section Perm.
Context {uc : UcProt}.

Definition dic : gmap string Z :=
  <["x" := UC_PROT_EXEC]> (<["w" := UC_PROT_WRITE]> (<["r" := UC_PROT_READ]> ∅)).

(** [dic.get(ch, 0)] *)
Definition dic_get (ch : string) : Z := default 0 (dic !! ch).

(** The loop [for ch in ...: perm += dic.get(ch, 0)]. *)
Fixpoint perm_loop (perm : Z) (l : list string) : Z :=
  match l with
  | [] => perm
  | ch :: l' => perm_loop (perm + dic_get ch) l'
  end.

Definition perm2uc (permstr : string) : Z :=
  perm_loop UC_PROT_NONE (chars permstr).

End Perm.

(** ** Values decoded from the engine's JSON replies

    [json.loads] yields [None], booleans, integers, strings, lists and
    dictionaries with string keys.  Numbers with a fraction are left out: no
    field declared in [r2.py] is a float and no code path inspects one. *)

#[warnings="-register-all"]
Inductive value : Type :=
  | VNone
  | VBool (b : bool)
  | VInt (z : Z)
  | VStr (s : string)
  | VList (l : list value)
  | VDict (d : list (string * value)).

(** Lists and dictionaries cannot be keys of a [dict]. *)
Definition hashable (v : value) : bool :=
  match v with
  | VList _ | VDict _ => false
  | _ => true
  end.

Definition as_num (v : value) : option Z :=
  match v with
  | VBool b => Some (Z.b2z b)
  | VInt z => Some z
  | _ => None
  end.

(** Python's [==] on hashable values: [True == 1] and [False == 0]. *)
Definition py_eqb (a b : value) : bool :=
  match a, b with
  | VNone, VNone => true
  | VStr s, VStr t => bool_decide (s = t)
  | _, _ =>
      match as_num a, as_num b with
      | Some x, Some y => x =? y
      | _, _ => false
      end
  end.

(** [for x in v] *)
Definition py_iter (v : value) : result (list value) :=
  match v with
  | VStr s => Ok (VStr <$> chars s)
  | VList l => Ok l
  | VDict d => Ok ((fun kv => VStr kv.1) <$> d)
  | _ => Raise TypeError
  end.

(** A [dict] in insertion order; [d[k] = v] keeps the place (and the key) of
    an entry that is already there. *)
Fixpoint dict_set {V} (k : value) (v : V) (d : list (value * V)) : list (value * V) :=
  match d with
  | [] => [(k, v)]
  | (k', v') :: d' =>
      if py_eqb k' k then (k', v) :: d' else (k', v') :: dict_set k v d'
  end.

(** [d[k] = v] raises [TypeError] on an unhashable key. *)
Definition dict_setitem {V} (k : value) (v : V) (d : list (value * V))
  : result (list (value * V)) :=
  if hashable k then Ok (dict_set k v d) else Raise TypeError.

(** [{key(x): val(x) for x in l}]: the key expression is evaluated before the
    value expression, then the entry is stored. *)
Fixpoint dict_comp {A V} (key : A -> result value) (val : A -> result V)
    (l : list A) (d : list (value * V)) : result (list (value * V)) :=
  match l with
  | [] => Ok d
  | x :: l' =>
      k ← key x; v ← val x; d' ← dict_setitem k v d; dict_comp key val l' d'
  end.

(** [kwargs[k]] on the keyword dictionary of a call *)
Definition getitem (kwargs : gmap string value) (k : string) : result value :=
  match kwargs !! k with
  | Some v => Ok v
  | None => Raise KeyError
  end.

(** [dic[k]] on a decoded value: only a dictionary can be indexed by a
    string. *)
Definition subscript (dic : value) (k : string) : result value :=
  match dic with
  | VDict d =>
      match (list_to_map d : gmap string value) !! k with
      | Some v => Ok v
      | None => Raise KeyError
      end
  | _ => Raise TypeError
  end.

(** ** The record kinds *)

Inductive kind : Type := Function | Section_ | String_ | Symbol | Flag_ | Xref_.

(** [fields(self)]: the annotated names of each dataclass, in order. *)
Definition fields (k : kind) : list string :=
  match k with
  | Function => ["name"; "offset"; "size"; "signature"]
  | Section_ => ["name"; "size"; "vsize"; "paddr"; "vaddr"; "perm"]
  | String_ => ["string"; "vaddr"; "paddr"; "size"; "length"; "section"]
  | Symbol => ["name"; "realname"; "bind"; "size"; "type"; "vaddr"; "paddr"; "is_imported"]
  | Flag_ => ["offset"; "name"; "size"]
  | Xref_ => ["name"; "fromaddr"; "refname"; "addr"; "type"]
  end.

(** The class attributes that stand in for a missing instance attribute:
    [section: str = None], [name: str = ''] and [size: int = 0]. *)
Definition class_default (k : kind) (a : string) : option value :=
  match k with
  | String_ => if bool_decide (a = "section") then Some VNone else None
  | Flag_ =>
      if bool_decide (a = "name") then Some (VStr "")
      else if bool_decide (a = "size") then Some (VInt 0)
      else None
  | _ => None
  end.

(** An instance: its class and its [__dict__]. *)
Record obj : Type := Obj { cls : kind; attrs : gmap string value }.

(** [o.a] *)
Definition getattr (o : obj) (a : string) : result value :=
  match attrs o !! a with
  | Some v => Ok v
  | None =>
      match class_default (cls o) a with
      | Some v => Ok v
      | None => Raise AttributeError
      end
  end.

(** [setattr(o, a, v)] *)
Definition setattr (o : obj) (a : string) (v : value) : obj :=
  Obj (cls o) (<[a := v]> (attrs o)).

(** [R2Data.__init__(self, **kwargs)] *)
Definition R2Data_init (self : obj) (kwargs : gmap string value) : obj :=
  let names : gset string := list_to_set (fields (cls self)) in
  map_fold (fun k v self => if decide (k ∈ names) then setattr self k v else self)
           self kwargs.

Section Records.
Context {uc : UcProt}.

(** [Section.perm2uc] applied to whatever value the attribute holds: a key
    that cannot be hashed makes [dic.get] raise. *)
Fixpoint perm_loop_v (perm : Z) (l : list value) : result Z :=
  match l with
  | [] => Ok perm
  | ch :: l' =>
      if hashable ch then
        perm_loop_v
          (perm + match ch with VStr c => dic_get c | _ => 0 end) l'
      else Raise TypeError
  end.

Definition perm2uc_v (permstr : value) : result Z :=
  l ← py_iter permstr; perm_loop_v UC_PROT_NONE l.

(** [Section.__init__(self, **kwargs)] *)
Definition Section_init (self : obj) (kwargs : gmap string value) : result obj :=
  let self := R2Data_init self kwargs in
  p ← getattr self "perm";
  perm ← perm2uc_v p;
  Ok (setattr self "perm" (VInt perm)).

(** [Xref.__init__(self, **kwargs)] *)
Definition Xref_init (self : obj) (kwargs : gmap string value) : result obj :=
  let self := R2Data_init self kwargs in
  f ← getitem kwargs "from";
  Ok (setattr self "fromaddr" f).

(** [cls( **kwargs)]: a fresh instance is passed as [self]; a key ["self"]
    collides with that parameter. *)
Definition construct (k : kind) (kwargs : gmap string value) : result obj :=
  if decide ("self" ∈ dom kwargs) then Raise TypeError
  else
    let self := Obj k ∅ in
    match k with
    | Section_ => Section_init self kwargs
    | Xref_ => Xref_init self kwargs
    | _ => Ok (R2Data_init self kwargs)
    end.

(** [cls( **dic)] on a decoded value: the argument after [**] must be a
    mapping. *)
Definition construct_from (k : kind) (dic : value) : result obj :=
  match dic with
  | VDict d => construct k (list_to_map d)
  | _ => Raise TypeError
  end.

End Records.

(** ** Flags and cross-references as their dataclasses declare them

    [Flag] has [offset: int], [name: str = ''] and [size: int = 0]; [Xref]
    has [name: str], [fromaddr: int], [refname: str], [addr: int] and
    [type: str].  The resolver is written against these types. *)

Record Flag : Type := mkFlag { offset : Z; name : string; size : Z }.

Record Xref : Type := mkXref {
  xref_name : string;
  fromaddr : Z;
  refname : string;
  addr : Z;
  xref_type : string
}.

(** [Flag(offset=addr)]: name and size fall back on the class defaults. *)
Definition Flag_at (a : Z) : Flag := mkFlag a "" 0.

(** [Flag.__lt__] *)
Definition Flag_lt (self other : Flag) : bool := offset self <? offset other.

(** Reading an instance at its declared types. *)
Definition Flag_of_obj (o : obj) : option Flag :=
  match getattr o "offset", getattr o "name", getattr o "size" with
  | Ok (VInt off), Ok (VStr n), Ok (VInt sz) => Some (mkFlag off n sz)
  | _, _, _ => None
  end.

(** ** [bisect.bisect_right]

    The loop of the standard library,
    [while lo < hi: mid = (lo + hi) // 2; if x < a[mid]: hi = mid; else: lo = mid + 1],
    with [<] the [__lt__] of the elements.  Every turn shrinks [hi - lo], so
    [hi - lo] turns are enough; [bisect_right] starts it with that many. *)
Fixpoint bisect_loop {A} (lt : A -> A -> bool) (a : list A) (x : A)
    (turns lo hi : nat) : result nat :=
  if (lo <? hi)%nat then
    match turns with
    | O => Ok lo
    | S turns' =>
        let mid := ((lo + hi) / 2)%nat in
        match a !! mid with
        | None => Raise IndexError
        | Some am =>
            if lt x am then bisect_loop lt a x turns' lo mid
            else bisect_loop lt a x turns' (mid + 1)%nat hi
        end
    end
  else Ok lo.

Definition bisect_right {A} (lt : A -> A -> bool) (a : list A) (x : A) : result nat :=
  bisect_loop lt a x (length a) 0%nat (length a).

(** [a[i]] for a Python integer index: a negative index counts from the end,
    and an index outside [-len(a) .. len(a) - 1] raises [IndexError]. *)
Definition py_index {A} (a : list A) (i : Z) : result A :=
  let n := Z.of_nat (length a) in
  let j := if i <? 0 then i + n else i in
  if (j <? 0) || (n <=? j) then Raise IndexError
  else
    match a !! Z.to_nat j with
    | Some x => Ok x
    | None => Raise IndexError
    end.

(** ** The address resolver *)

(** [R2.at], on the cached flags view. *)
Definition at_ (flags : list Flag) (addr : Z) : result (Flag * Z) :=
  idx ← bisect_right Flag_lt flags (Flag_at addr);
  flag ← py_index flags (Z.of_nat idx - 1);
  Ok (flag, addr - offset flag).

(** [R2.resolve] *)
Definition resolve (flags : list Flag) (addr : Z) : result (string * Z) :=
  '(flag, off) ← at_ flags addr;
  Ok (name flag, off).

(** The cached xrefs view, [Dict[int, Xref]] in insertion order. *)
Definition xrefs_view : Type := list (Z * Xref).

(** [R2.refrom]: [self.xrefs.get(addr)] *)
Fixpoint refrom (xrefs : xrefs_view) (a : Z) : option Xref :=
  match xrefs with
  | [] => None
  | (k, x) :: xrefs' => if k =? a then Some x else refrom xrefs' a
  end.

(** [R2.refto]: [[xref for xref in self.xrefs.values() if xref.addr == addr]] *)
Definition refto (xrefs : xrefs_view) (a : Z) : list Xref :=
  List.filter (fun xref => addr xref =? a) xrefs.*2.

(** ** The session: analysis gate and cached views

    Of a session the model keeps the [analyzed] flag, the commands sent to
    the engine so far (oldest first) and the three views computed behind the
    gate.  The engine and [json.loads] are outside the repository: the reply
    text is a function of the commands sent before and of the command, and
    decoding either yields a value or raises. *)

Record R2 : Type := mkR2 {
  analyzed : bool;
  issued : list string;
  functions_cache : option (list (value * obj));
  flags_cache : option (list obj);
  xrefs_cache : option (list (value * obj))
}.

(** A method of the session: it may change the session and either returns
    or raises; what it changed before raising stays changed. *)
Definition M (A : Type) : Type := R2 -> R2 * result A.

#[global] Instance M_ret : MRet M := fun A a self => (self, Ok a).

#[global] Instance M_bind : MBind M := fun A B k m self =>
  match m self with
  | (self', Ok a) => k a self'
  | (self', Raise e) => (self', Raise e)
  end.

Definition lift {A} (r : result A) : M A := fun self => (self, r).

Definition set_analyzed (b : bool) : M unit := fun self =>
  (mkR2 b (issued self) (functions_cache self) (flags_cache self) (xrefs_cache self),
   Ok ()).

Definition set_functions (v : list (value * obj)) : M unit := fun self =>
  (mkR2 (analyzed self) (issued self) (Some v) (flags_cache self) (xrefs_cache self),
   Ok ()).

Definition set_flags (v : list obj) : M unit := fun self =>
  (mkR2 (analyzed self) (issued self) (functions_cache self) (Some v) (xrefs_cache self),
   Ok ()).

Definition set_xrefs (v : list (value * obj)) : M unit := fun self =>
  (mkR2 (analyzed self) (issued self) (functions_cache self) (flags_cache self) (Some v),
   Ok ()).

(** What [R2.__init__] is given: the host emulator, of which it reads
    [code] (here as [code.hex()], if there is code), [path] and, when the
    host knows its architecture, the name and bit width it sends to the
    engine; or raw bytes; or a path. *)
Inductive target : Type :=
  | TQiling (code_hex : option string) (path : string) (arch : option (string * string))
  | TBytes (code_hex : string)
  | TStr (path : string).

(** The commands of [R2._setup_file]: the file is opened and loaded through
    the library, no command is sent. *)
Definition _setup_file (path : string) : list string := [].

(** The commands of [R2._setup_code]: the bytes are written with [wx]; the
    [e] command follows unless reading the architecture raises
    [AttributeError]. *)
Definition _setup_code (code_hex : string) (arch : option (string * string))
  : list string :=
  ("wx " +:+ code_hex)
  :: match arch with
     | Some (arch_name, bits) =>
         ["e,asm.arch=" +:+ arch_name +:+ ",asm.bits=" +:+ bits]
     | None => []
     end.

(** The commands [R2.__init__] sends; bytes that are empty count as no code
    for the host, and raw bytes come without a host, hence without an
    architecture. *)
Definition setup_commands (t : target) : list string :=
  match t with
  | TQiling (Some code_hex) path arch =>
      if bool_decide (code_hex = "") then _setup_file path
      else _setup_code code_hex arch
  | TQiling None path _ => _setup_file path
  | TBytes code_hex => _setup_code code_hex None
  | TStr path => _setup_file path
  end.

(** [R2.__init__]: the flag unset, nothing cached. *)
Definition R2_init (t : target) : R2 :=
  mkR2 false (setup_commands t) None None None.

Section Session.
Context {uc : UcProt}.
Variable engine : list string -> string -> string.
Variable json_loads : string -> result value.

(** [R2._cmd] *)
Definition _cmd (cmd : string) : M string := fun self =>
  (mkR2 (analyzed self) (issued self ++ [cmd])
        (functions_cache self) (flags_cache self) (xrefs_cache self),
   Ok (engine (issued self) cmd)).

(** [R2._cmdj] *)
Definition _cmdj (cmd : string) : M value :=
  r ← _cmd cmd; lift (json_loads r).

(** The decorator [R2.aaa] *)
Definition aaa {A} (fun_ : M A) : M A := fun self =>
  if analyzed self then fun_ self
  else (_ ← _cmd "aaa"; _ ← set_analyzed true; fun_) self.

(** [functools.cached_property]: the stored value if there is one, else
    the value the method returns, stored on the way out. *)
Definition cached_property {A} (get : R2 -> option A) (set : A -> M unit)
    (fun_ : M A) : M A := fun self =>
  match get self with
  | Some v => (self, Ok v)
  | None => (v ← fun_; _ ← set v; mret v) self
  end.

(** [R2.functions] *)
Definition functions : M (list (value * obj)) :=
  cached_property functions_cache set_functions (aaa (
    fcn_lst ← _cmdj "aflj";
    lift (l ← py_iter fcn_lst;
          dict_comp (fun dic => subscript dic "name") (construct_from Function) l []))).

(** [R2.flags] *)
Definition flags : M (list obj) :=
  cached_property flags_cache set_flags (aaa (
    lst ← _cmdj "fj";
    lift (l ← py_iter lst; for_each (construct_from Flag_) l))).

(** [R2.xrefs] *)
Definition xrefs : M (list (value * obj)) :=
  cached_property xrefs_cache set_xrefs (aaa (
    lst ← _cmdj "axj";
    lift (l ← py_iter lst;
          dict_comp (fun dic => subscript dic "from") (construct_from Xref_) l []))).

(** An access to one of the views behind the gate. *)
Inductive access : Type := GetFunctions | GetFlags | GetXrefs.

(** The session after the access; a caller may go on after an exception. *)
Definition step (a : access) (self : R2) : R2 :=
  match a with
  | GetFunctions => (functions self).1
  | GetFlags => (flags self).1
  | GetXrefs => (xrefs self).1
  end.

Definition run (accs : list access) (self : R2) : R2 :=
  foldl (fun self a => step a self) self accs.

(** The sessions: what [R2.__init__] leaves, and whatever accesses make of
    it. *)
Inductive session : R2 -> Prop :=
  | session_new t : session (R2_init t)
  | session_step a self : session self -> session (step a self).

End Session.

(** ** Notions used in the statements *)

(** The per-character value in the words of the specification: the read bit
    for [r], the write bit for [w], the execute bit for [x], nothing for any
    other character. *)
Definition char_bit {uc : UcProt} (c : ascii) : Z :=
  if bool_decide (c = "r"%char) then UC_PROT_READ
  else if bool_decide (c = "w"%char) then UC_PROT_WRITE
  else if bool_decide (c = "x"%char) then UC_PROT_EXEC
  else 0.

Definition sum_Z (l : list Z) : Z := foldr Z.add 0 l.

(** [c * n] in Python: the character repeated [n] times. *)
Fixpoint repeat_char (c : ascii) (n : nat) : string :=
  match n with
  | O => EmptyString
  | S n' => String c (repeat_char c n')
  end.

(** Sorted ascending by offset: no flag is followed by one of a smaller
    offset. *)
Definition sorted_by_offset (flags : list Flag) : Prop :=
  Sorted (fun f g => offset f <= offset g) flags.

(** The fields of a mapping that the record kind declares. *)
Definition accepted (k : kind) (kwargs : gmap string value) : gmap string value :=
  filter (fun kv => kv.1 ∈ fields k) kwargs.

(** How often the analysis command was sent. *)
Definition aaa_count (cmds : list string) : nat :=
  length (filter (fun c => c = "aaa") cmds).

(** The query behind each gated view. *)
Definition query (a : access) : string :=
  match a with
  | GetFunctions => "aflj"
  | GetFlags => "fj"
  | GetXrefs => "axj"
  end.

(** Whether the view is already stored on the session. *)
Definition cached (a : access) (self : R2) : bool :=
  match a with
  | GetFunctions => bool_decide (is_Some (functions_cache self))
  | GetFlags => bool_decide (is_Some (flags_cache self))
  | GetXrefs => bool_decide (is_Some (xrefs_cache self))
  end.

(** What every session satisfies: the command went out at most once, and
    not at all while the flag is unset, in which case nothing is stored
    either. *)
Definition gate_inv (self : R2) : Prop :=
  (aaa_count (issued self) ≤ 1)%nat
  ∧ (analyzed self = false ->
     aaa_count (issued self) = 0%nat ∧ ∀ a, cached a self = false).

(** The view read at the declared types of [Flag]. *)
Definition typed_flags (view : list obj) : option (list Flag) :=
  mapM Flag_of_obj view.

(** The commands sent once the gate has been passed. *)
Definition past_gate (self : R2) : list string :=
  if analyzed self then issued self else (issued self ++ ["aaa"])%list.

(** The [Flag] built from one mapping of the reply. *)
Definition flag_record (d : list (string * value)) : obj :=
  Obj Flag_ (accepted Flag_ (list_to_map d)).

(** An engine that echoes the command, and a decoder that knows the reply to
    the flags query only: two flags, the higher one first. *)
Definition echo_engine (sent : list string) (cmd : string) : string := cmd.

Definition two_flags_loads (reply : string) : result value :=
  if bool_decide (reply = "fj") then
    Ok (VList [VDict [("offset", VInt 32); ("name", VStr "mid")];
               VDict [("offset", VInt 16); ("name", VStr "start")]])
  else Raise JSONDecodeError.

Definition two_flags_view : list obj :=
  [flag_record [("offset", VInt 32); ("name", VStr "mid")];
   flag_record [("offset", VInt 16); ("name", VStr "start")]].

(** How an access ends for the caller: with the view, or with the exception
    that leaves it. *)
Definition outcome {uc : UcProt} (engine : list string -> string -> string)
    (json_loads : string -> result value) (a : access) (self : R2) : option exn :=
  match a with
  | GetFunctions =>
      match (functions engine json_loads self).2 with Ok _ => None | Raise e => Some e end
  | GetFlags =>
      match (flags engine json_loads self).2 with Ok _ => None | Raise e => Some e end
  | GetXrefs =>
      match (xrefs engine json_loads self).2 with Ok _ => None | Raise e => Some e end
  end.

(** [d.get(k)] on a [dict] in insertion order. *)
Fixpoint dict_lookup {V} (k : value) (d : list (value * V)) : option V :=
  match d with
  | [] => None
  | (k', v') :: d' => if py_eqb k' k then Some v' else dict_lookup k d'
  end.

(** [R2.enable_trace], the map it hands to the tracer:
    [{flag.offset: flag.name for flag in self.flags}]. *)
Definition symsmap (flags : list Flag) : result (list (value * string)) :=
  dict_comp (fun flag => Ok (VInt (offset flag))) (fun flag => Ok (name flag)) flags [].

(** A decoder that knows the reply to the xrefs query only: two edges that
    leave the same address. *)
Definition two_edges_loads (reply : string) : result value :=
  if bool_decide (reply = "axj") then
    Ok (VList [VDict [("from", VInt 16); ("addr", VInt 32)];
               VDict [("from", VInt 16); ("addr", VInt 48)]])
  else Raise JSONDecodeError.

Definition two_edges_view : list (value * obj) :=
  [(VInt 16,
    Obj Xref_ (<["fromaddr" := VInt 16]>
                 (accepted Xref_ (list_to_map [("from", VInt 16); ("addr", VInt 48)]))))].

(** ** Bytes as hexadecimal text

    [R2._setup_code] writes the code as [code.hex()] and [R2.read] decodes
    the engine's dump with [bytes.fromhex]: two lower-case digits per byte
    one way; the other way, whitespace is skipped before each byte and a
    byte is two hexadecimal digits of either case, anything else being a
    [ValueError]. *)

Definition hex_digit (n : N) : ascii :=
  match n with
  | 0 => "0" | 1 => "1" | 2 => "2" | 3 => "3" | 4 => "4" | 5 => "5"
  | 6 => "6" | 7 => "7" | 8 => "8" | 9 => "9" | 10 => "a" | 11 => "b"
  | 12 => "c" | 13 => "d" | 14 => "e" | _ => "f"
  end%N%char.

Definition byte_hex (b : Byte.byte) : string :=
  let n := Byte.to_N b in
  String (hex_digit (n / 16)) (String (hex_digit (n mod 16)) EmptyString).

(** [bytes.hex()] *)
Fixpoint hex (bs : list Byte.byte) : string :=
  match bs with
  | [] => EmptyString
  | b :: bs' => byte_hex b +:+ hex bs'
  end.

(** The value of a hexadecimal digit of either case. *)
Definition hex_value (c : ascii) : option N :=
  let n := N_of_ascii c in
  if (48 <=? n)%N && (n <=? 57)%N then Some (n - 48)%N
  else if (97 <=? n)%N && (n <=? 102)%N then Some (n - 87)%N
  else if (65 <=? n)%N && (n <=? 70)%N then Some (n - 55)%N
  else None.

(** Space, tab, line feed, vertical tab, form feed, carriage return. *)
Definition is_space (c : ascii) : bool :=
  let n := N_of_ascii c in
  (n =? 32)%N || ((9 <=? n)%N && (n <=? 13)%N).

(** [bytes.fromhex]; [None] stands for its [ValueError]. *)
Fixpoint fromhex (s : string) : option (list Byte.byte) :=
  match s with
  | EmptyString => Some []
  | String c s' =>
      if is_space c then fromhex s'
      else
        match hex_value c, s' with
        | Some top, String c' s'' =>
            match hex_value c' with
            | Some bot =>
                match Byte.of_N (top * 16 + bot), fromhex s'' with
                | Some b, Some bs => Some (b :: bs)
                | _, _ => None
                end
            | None => None
            end
        | _, _ => None
        end
  end.

(** The line feed that ends the engine's dump. *)
Definition line_feed : string := String (ascii_of_N 10) EmptyString.

(** [R2.read]: the dump command [p8 size @ addr], and its reply decoded;
    [None] stands for the [ValueError] of a reply that is no hexadecimal
    text. *)
Definition read (engine : list string -> string -> string) (addr size : Z)
  : R2 -> R2 * option (list Byte.byte) := fun self =>
  let '(self', r) :=
    _cmd engine ("p8 " +:+ pretty size +:+ " @ " +:+ pretty addr) self in
  (self', match r with Ok hexstr => fromhex hexstr | Raise _ => None end).


(** * Properties *)

(** ** [Section.perm2uc] *)

#[global] Instance unicorn_bits : UcProtBits unicorn.
Proof. by split. Qed.

Section PermFacts.
Context {uc : UcProt}.

Lemma dic_get_char (c : ascii) : dic_get (String c EmptyString) = char_bit c.
Proof.
  unfold dic_get, dic, char_bit.
  rewrite !lookup_insert, lookup_empty.
  repeat case_decide; repeat case_bool_decide; simplify_eq; done.
Qed.

Lemma sum_Z_cons (z : Z) (l : list Z) : sum_Z (z :: l) = z + sum_Z l.
Proof. done. Qed.

Lemma chars_app (s t : string) : chars (s +:+ t) = (chars s ++ chars t)%list.
Proof. induction s as [|c s IH]; simpl; [done | by rewrite IH]. Qed.

Lemma perm_loop_app (p : Z) (l1 l2 : list string) :
  perm_loop p (l1 ++ l2)%list = perm_loop (perm_loop p l1) l2.
Proof. revert p; induction l1 as [|ch l1 IH]; intros p; simpl; [done | apply IH]. Qed.

Lemma perm_loop_acc (p : Z) (l : list string) :
  perm_loop p l = p + perm_loop 0 l.
Proof.
  revert p; induction l as [|ch l IH]; intros p; simpl; [lia |].
  rewrite (IH (p + _)), (IH (0 + _)). lia.
Qed.

Lemma perm_loop_sum (s : string) :
  perm_loop 0 (chars s) = sum_Z (char_bit <$> String.list_ascii_of_string s).
Proof.
  induction s as [|c s IH]; [done |].
  cbn [chars perm_loop String.list_ascii_of_string].
  rewrite fmap_cons, sum_Z_cons, <- IH, perm_loop_acc, dic_get_char. lia.
Qed.

Lemma perm2uc_sum (s : string) :
  perm2uc s = UC_PROT_NONE + sum_Z (char_bit <$> String.list_ascii_of_string s).
Proof. unfold perm2uc. by rewrite perm_loop_acc, perm_loop_sum. Qed.

Lemma perm2uc_repeat (c : ascii) (n : nat) :
  perm2uc (repeat_char c n) = UC_PROT_NONE + Z.of_nat n * char_bit c.
Proof.
  rewrite perm2uc_sum. f_equal.
  induction n as [|n IH]; [done |].
  cbn [repeat_char String.list_ascii_of_string fmap list_fmap sum_Z foldr].
  fold (sum_Z (char_bit <$> String.list_ascii_of_string (repeat_char c n))).
  rewrite IH. lia.
Qed.

(** On a string the loop never meets a key it cannot hash. *)
Lemma perm_loop_v_chars (p : Z) (s : string) :
  perm_loop_v p (VStr <$> chars s) = Ok (perm_loop p (chars s)).
Proof.
  revert p; induction s as [|c s IH]; intros p; simpl; [done | apply IH].
Qed.

Lemma perm2uc_v_str (s : string) : perm2uc_v (VStr s) = Ok (perm2uc s).
Proof. unfold perm2uc_v, perm2uc. simpl. apply perm_loop_v_chars. Qed.

Lemma lor_disjoint (a b : Z) : Z.land a b = 0 -> Z.lor a b = a + b.
Proof. intros H. pose proof (Z.add_lor_land a b). lia. Qed.

(** C6: ["-rwx"] converts to the union of the read, write and execute
    bits and ["---"] to no bit; in any string a character other than [r],
    [w] and [x] adds nothing to the result, and the conversion of a string
    never raises. *)
Theorem perm2uc_permission_strings (bits : UcProtBits uc) :
  perm2uc "-rwx" = Z.lor (Z.lor UC_PROT_READ UC_PROT_WRITE) UC_PROT_EXEC
  ∧ perm2uc "---" = 0
  ∧ (∀ (s t : string) (c : ascii),
       c ≠ "r"%char -> c ≠ "w"%char -> c ≠ "x"%char ->
       perm2uc (s +:+ String c t) = perm2uc (s +:+ t))
  ∧ (∀ s : string, perm2uc_v (VStr s) = Ok (perm2uc s)).
Proof.
  destruct bits as [Hnone Hrw Hrx Hwx].
  split; [| split; [| split]].
  - rewrite perm2uc_sum, Hnone.
    rewrite (lor_disjoint (Z.lor _ _)), lor_disjoint; [| done |].
    + unfold char_bit, sum_Z; simpl. lia.
    + by rewrite Z.land_lor_distr_l, Hrx, Hwx.
  - rewrite perm2uc_sum, Hnone. done.
  - intros s t c Hr Hw Hx. unfold perm2uc.
    rewrite !chars_app, !perm_loop_app. simpl.
    rewrite dic_get_char. unfold char_bit.
    rewrite !bool_decide_eq_false_2 by done. by rewrite Z.add_0_r.
  - apply perm2uc_v_str.
Qed.

(** C10: the conversion is the arithmetic sum of the per-character
    values, so a repeated character counts once per occurrence: [n] times a
    character gives [n] times its value, [n] times [r] gives [n] times the
    read bit, and ["rr"] gives twice the read bit, which is not the union of
    the bits of ["rr"] unless the read bit is zero. *)
Theorem perm2uc_is_sum (bits : UcProtBits uc) :
  (∀ s : string, perm2uc s = sum_Z (char_bit <$> String.list_ascii_of_string s))
  ∧ (∀ (c : ascii) (n : nat),
       perm2uc (repeat_char c n) = Z.of_nat n * char_bit c)
  ∧ (∀ n : nat, perm2uc (repeat_char "r" n) = Z.of_nat n * UC_PROT_READ)
  ∧ perm2uc "rr" = 2 * UC_PROT_READ
  ∧ (UC_PROT_READ ≠ 0 -> perm2uc "rr" ≠ Z.lor UC_PROT_READ UC_PROT_READ).
Proof.
  destruct bits as [Hnone _ _ _].
  assert (Hrr : perm2uc "rr" = 2 * UC_PROT_READ).
  { rewrite perm2uc_sum, Hnone. unfold char_bit, sum_Z; simpl. lia. }
  repeat split.
  - intros s. rewrite perm2uc_sum, Hnone. lia.
  - intros c n. rewrite perm2uc_repeat, Hnone. lia.
  - intros n. rewrite perm2uc_repeat, Hnone. unfold char_bit. simpl. lia.
  - done.
  - intros Hr. rewrite Hrr, Z.lor_diag. lia.
Qed.

End PermFacts.

Lemma perm2uc_permission_strings_unicorn :
  @perm2uc unicorn "-rwx" = 7 ∧ @perm2uc unicorn "---" = 0
  ∧ @perm2uc unicorn "r-x?" = @perm2uc unicorn "rx".
Proof.
  destruct (@perm2uc_permission_strings unicorn unicorn_bits) as (H1 & H2 & H3 & _).
  split; [exact H1 | split; [exact H2 |]].
  transitivity (@perm2uc unicorn "rx?").
  - exact (H3 "r" "x?" "-"%char ltac:(done) ltac:(done) ltac:(done)).
  - exact (H3 "rx" "" "?"%char ltac:(done) ltac:(done) ltac:(done)).
Defined.

Lemma perm2uc_is_sum_unicorn :
  @perm2uc unicorn "rr" = 2 ∧ @perm2uc unicorn "rr" ≠ 1.
Proof.
  destruct (@perm2uc_is_sum unicorn unicorn_bits) as (_ & _ & _ & H3 & H4).
  split; [exact H3 | apply H4; done].
Defined.

(** ** [bisect.bisect_right] *)

Lemma mid_bounds (lo hi : nat) :
  (lo < hi)%nat -> (lo ≤ (lo + hi) / 2 < hi)%nat.
Proof.
  intros H. split.
  - apply Nat.div_le_lower_bound; lia.
  - apply Nat.Div0.div_lt_upper_bound; lia.
Qed.

Section Bisect.
Context {A : Type} (lt : A -> A -> bool) (a : list A) (x : A).

Lemma bisect_loop_turn (turns lo hi : nat) :
  bisect_loop lt a x (S turns) lo hi =
    if (lo <? hi)%nat then
      match a !! ((lo + hi) / 2)%nat with
      | None => Raise IndexError
      | Some am =>
          if lt x am then bisect_loop lt a x turns lo ((lo + hi) / 2)%nat
          else bisect_loop lt a x turns ((lo + hi) / 2 + 1)%nat hi
      end
    else Ok lo.
Proof. done. Qed.

Lemma bisect_loop_done (turns lo hi : nat) :
  (hi ≤ lo)%nat -> bisect_loop lt a x turns lo hi = Ok lo.
Proof.
  intros H. apply Nat.ltb_ge in H. destruct turns; simpl; by rewrite H.
Qed.

(** The loop returns whatever the list holds, as long as the window lies
    inside the list and the turns cover it. *)
Lemma bisect_loop_total (turns lo hi : nat) :
  (hi ≤ length a)%nat -> (hi - lo ≤ turns)%nat ->
  ∃ idx, bisect_loop lt a x turns lo hi = Ok idx
         ∧ (lo ≤ idx)%nat ∧ (idx ≤ Nat.max lo hi)%nat.
Proof.
  revert lo hi. induction turns as [|turns IH]; intros lo hi Hhi Hturns.
  - exists lo. rewrite bisect_loop_done by lia. split; [done | lia].
  - destruct (decide (lo < hi)%nat) as [E|E].
    2:{ exists lo. rewrite bisect_loop_done by lia. split; [done | lia]. }
    rewrite bisect_loop_turn. rewrite (proj2 (Nat.ltb_lt _ _) E).
    pose proof (mid_bounds lo hi E) as Hmid.
    set (mid := ((lo + hi) / 2)%nat) in *.
    destruct (lookup_lt_is_Some_2 a mid) as [am Ham]; [lia |].
    rewrite Ham. destruct (lt x am).
    + destruct (IH lo mid) as (idx & Hidx & ? & ?); [lia | lia |].
      exists idx. split; [done | lia].
    + destruct (IH (mid + 1)%nat hi) as (idx & Hidx & ? & ?); [lia | lia |].
      exists idx. split; [done | lia].
Qed.

Lemma bisect_right_total :
  ∃ idx, bisect_right lt a x = Ok idx ∧ (idx ≤ length a)%nat.
Proof.
  destruct (bisect_loop_total (length a) 0 (length a)) as (idx & H & _ & ?);
    [lia | lia |].
  exists idx. split; [done | lia].
Qed.

(** [x < a[i]] can only switch from false to true along the list: what a
    list sorted for [lt] gives. *)
Hypothesis upward : ∀ i j ai aj,
  (i ≤ j)%nat -> a !! i = Some ai -> a !! j = Some aj ->
  lt x ai = true -> lt x aj = true.

(** The loop ends on the point where [x < a[i]] switches. *)
Lemma bisect_loop_partition (turns lo hi : nat) :
  (lo ≤ hi)%nat -> (hi ≤ length a)%nat -> (hi - lo ≤ turns)%nat ->
  (∀ j aj, (j < lo)%nat -> a !! j = Some aj -> lt x aj = false) ->
  (∀ j aj, (hi ≤ j)%nat -> a !! j = Some aj -> lt x aj = true) ->
  ∃ idx, bisect_loop lt a x turns lo hi = Ok idx
         ∧ (idx ≤ length a)%nat
         ∧ (∀ j aj, (j < idx)%nat -> a !! j = Some aj -> lt x aj = false)
         ∧ (∀ j aj, (idx ≤ j)%nat -> a !! j = Some aj -> lt x aj = true).
Proof.
  revert lo hi. induction turns as [|turns IH]; intros lo hi Hle Hhi Hturns Hlo Hup.
  - assert (lo = hi) as -> by lia. exists hi.
    rewrite bisect_loop_done by lia. done.
  - destruct (decide (lo < hi)%nat) as [E|E].
    2:{ assert (lo = hi) as -> by lia. exists hi.
        rewrite bisect_loop_done by lia. done. }
    rewrite bisect_loop_turn. rewrite (proj2 (Nat.ltb_lt _ _) E).
    pose proof (mid_bounds lo hi E) as Hmid.
    set (mid := ((lo + hi) / 2)%nat) in *.
    destruct (lookup_lt_is_Some_2 a mid) as [am Ham]; [lia |].
    rewrite Ham. destruct (lt x am) eqn:Hlt.
    + apply IH; [lia | lia | lia | done |].
      intros j aj Hj Haj. by apply (upward mid j am aj Hj Ham).
    + apply IH; [lia | lia | lia | | done].
      intros j aj Hj Haj. destruct (lt x aj) eqn:Hx; [| done].
      rewrite (upward j mid aj am) in Hlt; [done | lia | done..].
Qed.

Lemma bisect_right_partition :
  ∃ idx, bisect_right lt a x = Ok idx
         ∧ (idx ≤ length a)%nat
         ∧ (∀ j aj, (j < idx)%nat -> a !! j = Some aj -> lt x aj = false)
         ∧ (∀ j aj, (idx ≤ j)%nat -> a !! j = Some aj -> lt x aj = true).
Proof.
  apply bisect_loop_partition; [lia | lia | lia | intros; lia |].
  intros j aj Hj Haj. apply lookup_lt_Some in Haj. lia.
Qed.

End Bisect.

(** ** The address resolver *)

Lemma sorted_by_offset_lookup (flags : list Flag) (i j : nat) (fi fj : Flag) :
  sorted_by_offset flags -> (i ≤ j)%nat ->
  flags !! i = Some fi -> flags !! j = Some fj -> offset fi <= offset fj.
Proof.
  intros Hs. apply Sorted_StronglySorted in Hs; [| intros f g h; lia].
  revert i j. induction Hs as [|f flags Hs IH Hall]; intros i j Hij Hi Hj; [done |].
  destruct i as [|i], j as [|j]; simpl in *; simplify_eq; try lia.
  - rewrite Forall_forall in Hall. apply Hall.
    by eapply list_elem_of_lookup_2.
  - eapply IH; [| done..]. lia.
Qed.

Lemma Flag_lt_spec (a : Z) (f : Flag) :
  (Flag_lt (Flag_at a) f = true <-> a < offset f)
  ∧ (Flag_lt (Flag_at a) f = false <-> offset f <= a).
Proof. unfold Flag_lt, Flag_at; simpl. split; [apply Z.ltb_lt | apply Z.ltb_ge]. Qed.

(** On a sorted view the insertion point splits the flags into those at or
    below the address and those above it. *)
Lemma bisect_right_flags (flags : list Flag) (a : Z) :
  sorted_by_offset flags ->
  ∃ idx, bisect_right Flag_lt flags (Flag_at a) = Ok idx
         ∧ (idx ≤ length flags)%nat
         ∧ (∀ j f, (j < idx)%nat -> flags !! j = Some f -> offset f <= a)
         ∧ (∀ j f, (idx ≤ j)%nat -> flags !! j = Some f -> a < offset f).
Proof.
  intros Hs.
  destruct (bisect_right_partition Flag_lt flags (Flag_at a)) as (idx & H & Hlen & Hlo & Hhi).
  - intros i j fi fj Hij Hi Hj Hlt. apply Flag_lt_spec in Hlt. apply Flag_lt_spec.
    pose proof (sorted_by_offset_lookup flags i j fi fj Hs Hij Hi Hj). lia.
  - exists idx. repeat split; [done.. | |].
    + intros j f Hj Hf. apply Flag_lt_spec. eauto.
    + intros j f Hj Hf. apply Flag_lt_spec. eauto.
Qed.

Lemma py_index_nonneg {A} (a : list A) (i : nat) (x : A) :
  a !! i = Some x -> py_index a (Z.of_nat i) = Ok x.
Proof.
  intros H. pose proof (lookup_lt_Some _ _ _ H) as Hlt. unfold py_index.
  destruct (Z.ltb_spec (Z.of_nat i) 0); [lia |].
  destruct (Z.ltb_spec (Z.of_nat i) 0); [lia |].
  destruct (Z.leb_spec (Z.of_nat (length a)) (Z.of_nat i)); [lia |]. simpl.
  by rewrite Nat2Z.id, H.
Qed.

(** [a[-1]] is the last element. *)
Lemma py_index_minus_one {A} (a : list A) (x : A) :
  last a = Some x -> py_index a (-1) = Ok x.
Proof.
  intros H. rewrite last_lookup in H.
  pose proof (lookup_lt_Some _ _ _ H) as Hlt. unfold py_index.
  change (-1 <? 0) with true. cbv iota.
  destruct (Z.ltb_spec (-1 + Z.of_nat (length a)) 0); [lia |].
  destruct (Z.leb_spec (Z.of_nat (length a)) (-1 + Z.of_nat (length a))); [lia |].
  simpl.
  replace (Z.to_nat (-1 + Z.of_nat (length a))) with (Nat.pred (length a)) by lia.
  by rewrite H.
Qed.

Lemma at_index (flags : list Flag) (a : Z) (idx : nat) (f : Flag) :
  bisect_right Flag_lt flags (Flag_at a) = Ok idx ->
  py_index flags (Z.of_nat idx - 1) = Ok f ->
  at_ flags a = Ok (f, a - offset f).
Proof. intros H1 H2. unfold at_. rewrite H1. cbn [mbind result_bind]. by rewrite H2. Qed.

(** The flag found for an address between a flag and its successor. *)
Lemma at_between (flags : list Flag) (i : nat) (f : Flag) (a : Z) :
  sorted_by_offset flags ->
  flags !! i = Some f -> offset f <= a ->
  (∀ g, flags !! S i = Some g -> a < offset g) ->
  at_ flags a = Ok (f, a - offset f).
Proof.
  intros Hs Hf Hle Hnext.
  destruct (bisect_right_flags flags a Hs) as (idx & Hidx & Hlen & Hlo & Hhi).
  assert (idx = S i) as ->.
  { destruct (decide (idx ≤ i)%nat) as [E|E].
    { pose proof (Hhi i f E Hf). lia. }
    destruct (decide (S i < idx)%nat) as [E'|E']; [| lia].
    destruct (lookup_lt_is_Some_2 flags (S i)) as [g Hg]; [lia |].
    pose proof (Hlo (S i) g E' Hg). pose proof (Hnext g Hg). lia. }
  apply (at_index flags a (S i) f Hidx).
  replace (Z.of_nat (S i) - 1) with (Z.of_nat i) by lia.
  by apply py_index_nonneg.
Qed.

(** Below the first flag the insertion point is 0 and the index wraps to
    the end of the list. *)
Lemma at_wraps (flags : list Flag) (first l : Flag) (a : Z) :
  sorted_by_offset flags ->
  head flags = Some first -> last flags = Some l -> a < offset first ->
  at_ flags a = Ok (l, a - offset l).
Proof.
  intros Hs Hfirst Hlast Hlt.
  destruct (bisect_right_flags flags a Hs) as (idx & Hidx & Hlen & Hlo & Hhi).
  assert (idx = 0%nat) as ->.
  { destruct idx as [|idx]; [done |].
    rewrite head_lookup in Hfirst.
    pose proof (Hlo 0%nat first ltac:(lia) Hfirst). lia. }
  apply (at_index flags a 0%nat l Hidx).
  by apply py_index_minus_one.
Qed.

(** Whatever the order of the flags, [at] returns on a view that is not
    empty: the index it reads lies between [-1] and [len - 1]. *)
Lemma at_total (flags : list Flag) (a : Z) :
  flags ≠ [] -> ∃ r, at_ flags a = Ok r.
Proof.
  intros Hne.
  destruct (bisect_right_total Flag_lt flags (Flag_at a)) as (idx & Hidx & Hlen).
  destruct idx as [|idx].
  - destruct (last flags) as [l|] eqn:Hl.
    + eexists. apply (at_index flags a 0%nat l Hidx). by apply py_index_minus_one.
    + apply last_None in Hl. done.
  - destruct (lookup_lt_is_Some_2 flags idx) as [f Hf]; [lia |].
    eexists. apply (at_index flags a (S idx) f Hidx).
    replace (Z.of_nat (S idx) - 1) with (Z.of_nat idx) by lia.
    by apply py_index_nonneg.
Qed.

Lemma resolve_of_at (flags : list Flag) (a : Z) (f : Flag) (r : Z) :
  at_ flags a = Ok (f, r) -> resolve flags a = Ok (name f, r).
Proof. intros H. unfold resolve. by rewrite H. Qed.

(** C1: on the flags [start] at 0x10 and [mid] at 0x20, resolving the
    address 3, which lies below every flag, raises nothing: the insertion
    point is 0, the index -1 reads the last flag, and the caller receives
    [mid] with the residual -29. *)
Theorem resolve_below_every_flag :
  resolve [mkFlag 16 "start" 0; mkFlag 32 "mid" 0] 3 = Ok ("mid", -29)
  ∧ bisect_right Flag_lt [mkFlag 16 "start" 0; mkFlag 32 "mid" 0] (Flag_at 3) = Ok 0%nat.
Proof. split; reflexivity. Qed.

(** C3, as amended: on a view sorted ascending by offset, resolving the
    offset of a flag gives the residual 0 and the name of a flag at that
    offset, namely the last one in the list: the name of the flag itself
    when no later flag shares its offset. *)
Theorem resolve_at_flag_offset (flags : list Flag) (f : Flag) :
  sorted_by_offset flags -> f ∈ flags ->
  (∃ g, g ∈ flags ∧ offset g = offset f
        ∧ resolve flags (offset f) = Ok (name g, 0))
  ∧ (∀ i, flags !! i = Some f ->
          (∀ j g, (i < j)%nat -> flags !! j = Some g -> offset g ≠ offset f) ->
          resolve flags (offset f) = Ok (name f, 0)).
Proof.
  intros Hs Hin. split.
  - apply list_elem_of_lookup in Hin as [i Hi].
    destruct (bisect_right_flags flags (offset f) Hs) as (idx & Hidx & Hlen & Hlo & Hhi).
    destruct idx as [|idx].
    { pose proof (Hhi i f ltac:(lia) Hi). lia. }
    destruct (lookup_lt_is_Some_2 flags idx) as [g Hg]; [lia |].
    assert (Hgf : offset g = offset f).
    { pose proof (Hlo idx g ltac:(lia) Hg).
      destruct (decide (i ≤ idx)%nat) as [E|E].
      - pose proof (sorted_by_offset_lookup flags i idx f g Hs E Hi Hg). lia.
      - pose proof (Hhi i f ltac:(lia) Hi). lia. }
    exists g. split; [by eapply list_elem_of_lookup_2 | split; [done |]].
    apply resolve_of_at. replace 0 with (offset f - offset g) by lia.
    apply (at_index flags (offset f) (S idx) g Hidx).
    replace (Z.of_nat (S idx) - 1) with (Z.of_nat idx) by lia.
    by apply py_index_nonneg.
  - intros i Hi Hlast. apply resolve_of_at.
    replace 0 with (offset f - offset f) by lia.
    apply (at_between flags i f); [done | done | lia |].
    intros g Hg.
    pose proof (sorted_by_offset_lookup flags i (S i) f g Hs ltac:(lia) Hi Hg).
    pose proof (Hlast (S i) g ltac:(lia) Hg). lia.
Qed.

Lemma resolve_at_flag_offset_example :
  resolve [mkFlag 16 "start" 0; mkFlag 32 "mid" 0] 32 = Ok ("mid", 0).
Proof.
  assert (Hs : sorted_by_offset [mkFlag 16 "start" 0; mkFlag 32 "mid" 0]).
  { repeat constructor; simpl; lia. }
  assert (Hin : mkFlag 32 "mid" 0 ∈ [mkFlag 16 "start" 0; mkFlag 32 "mid" 0]).
  { apply list_elem_of_In; simpl; auto. }
  destruct (resolve_at_flag_offset _ _ Hs Hin) as [_ H].
  apply (H 1%nat); [reflexivity |].
  intros [|[|[|j]]] g Hj Hg; simpl in Hg; try lia; discriminate.
Defined.

(** Two flags may share an offset; the first of them is then never the one
    [resolve] names. *)
Lemma resolve_shared_offset :
  ¬ (∀ (flags : list Flag) (f : Flag),
       flags ≠ [] -> sorted_by_offset flags -> f ∈ flags ->
       resolve flags (offset f) = Ok (name f, 0)).
Proof.
  intros H.
  specialize (H [mkFlag 16 "entry0" 0; mkFlag 16 "main" 0] (mkFlag 16 "entry0" 0)).
  assert (resolve [mkFlag 16 "entry0" 0; mkFlag 16 "main" 0] 16 = Ok ("main", 0))
    as Hrun by reflexivity.
  simpl offset in H. rewrite Hrun in H.
  discriminate H; [done | repeat constructor; simpl; lia | apply list_elem_of_In; simpl; auto].
Qed.

(** C4: on a view sorted ascending by offset, an address strictly between
    the offsets of two adjacent flags resolves to the name of the lower flag
    and the distance from its offset. *)
Theorem resolve_between_adjacent (flags : list Flag) (i : nat) (lower upper : Flag) (a : Z) :
  sorted_by_offset flags ->
  flags !! i = Some lower -> flags !! S i = Some upper ->
  offset lower < a < offset upper ->
  resolve flags a = Ok (name lower, a - offset lower).
Proof.
  intros Hs Hlo Hup [H1 H2]. apply resolve_of_at.
  apply (at_between flags i lower); [done | done | lia |].
  intros g Hg. by simplify_eq.
Qed.

Lemma resolve_between_adjacent_example :
  resolve [mkFlag 16 "start" 0; mkFlag 32 "mid" 0] 21 = Ok ("start", 5).
Proof.
  apply (resolve_between_adjacent _ 0%nat (mkFlag 16 "start" 0) (mkFlag 32 "mid" 0));
    [repeat constructor; simpl; lia | reflexivity | reflexivity | simpl; lia].
Defined.

(** C9: on a non-empty view sorted ascending by offset, [at] of an address
    below the first flag raises nothing and returns the last flag of the
    list, which has the greatest offset, with the negative residual
    [addr - offset]; and on a non-empty view [at] returns for every
    address. *)
Theorem at_below_first_flag (flags : list Flag) (first : Flag) (a : Z) :
  sorted_by_offset flags -> head flags = Some first -> a < offset first ->
  (∃ l, last flags = Some l
        ∧ at_ flags a = Ok (l, a - offset l)
        ∧ a - offset l < 0
        ∧ (∀ f, f ∈ flags -> offset f <= offset l))
  ∧ (∀ a', ∃ r, at_ flags a' = Ok r).
Proof.
  intros Hs Hfirst Hlt.
  assert (Hne : flags ≠ []) by (intros ->; done).
  split; [| intros a'; by apply at_total].
  destruct (last flags) as [l|] eqn:Hl; [| by apply last_None in Hl].
  exists l. split; [done |].
  assert (Hmax : ∀ f, f ∈ flags -> offset f <= offset l).
  { intros f Hf. apply list_elem_of_lookup in Hf as [i Hi].
    rewrite last_lookup in Hl.
    pose proof (lookup_lt_Some _ _ _ Hi).
    apply (sorted_by_offset_lookup flags i (Nat.pred (length flags)) f l); [done | lia | done..]. }
  split; [by apply (at_wraps flags first) |].
  split; [| done].
  assert (first ∈ flags) as Hin.
  { rewrite head_lookup in Hfirst. by eapply list_elem_of_lookup_2. }
  specialize (Hmax first Hin). lia.
Qed.

Lemma at_below_first_flag_example :
  at_ [mkFlag 16 "start" 0; mkFlag 32 "mid" 0] 3 = Ok (mkFlag 32 "mid" 0, -29).
Proof.
  destruct (at_below_first_flag [mkFlag 16 "start" 0; mkFlag 32 "mid" 0]
              (mkFlag 16 "start" 0) 3) as [(l & Hl & Hat & _) _];
    [repeat constructor; simpl; lia | reflexivity | simpl; lia |].
  injection Hl as <-. exact Hat.
Defined.

(** C8: [refto] lists exactly the cross-references of the view whose
    destination is the address and no others: every one it lists is in the
    view with that destination, and the view is [refto]'s list, in the
    view's order, together with cross-references of other destinations. *)
Theorem refto_exact (xrefs : xrefs_view) (a : Z) :
  (∀ x, x ∈ refto xrefs a <-> x ∈ xrefs.*2 ∧ addr x = a)
  ∧ refto xrefs a `sublist_of` xrefs.*2
  ∧ (∃ others, Forall (fun x => addr x ≠ a) others
               ∧ xrefs.*2 ≡ₚ refto xrefs a ++ others).
Proof.
  unfold refto. induction xrefs as [|[k x] xrefs (IH1 & IH2 & others & IH3 & IH4)].
  - split; [| split; [done | by exists []]].
    intros x. simpl. split; [by intros ?%elem_of_nil | by intros [?%elem_of_nil _]].
  - cbn [fmap list_fmap snd List.filter]. fold (xrefs.*2).
    destruct (Z.eqb_spec (addr x) a) as [E|E].
    + split; [| split].
      * intros y. rewrite !elem_of_cons, IH1. intuition congruence.
      * by apply sublist_skip.
      * exists others. split; [done |]. simpl. by rewrite <- IH4.
    + split; [| split].
      * intros y. rewrite elem_of_cons, IH1. intuition congruence.
      * by apply sublist_cons.
      * exists (x :: others). split; [by constructor |].
        rewrite <- Permutation_middle. by rewrite <- IH4.
Qed.

(** ** Construction of records *)

Lemma accepted_lookup (k : kind) (kwargs : gmap string value) (a : string) :
  accepted k kwargs !! a = if decide (a ∈ fields k) then kwargs !! a else None.
Proof.
  unfold accepted. case_decide as Ha.
  - destruct (kwargs !! a) as [v|] eqn:E.
    + by apply map_lookup_filter_Some_2.
    + apply map_lookup_filter_None_2. by left.
  - apply map_lookup_filter_None_2. right. intros v _. done.
Qed.

(** [R2Data.__init__] on a fresh instance keeps the declared fields. *)
Lemma R2Data_init_accepted (k : kind) (kwargs : gmap string value) :
  R2Data_init (Obj k ∅) kwargs = Obj k (accepted k kwargs).
Proof.
  unfold R2Data_init, accepted. cbn [cls].
  apply (map_fold_weak_ind
           (fun r m => r = Obj k (filter (fun kv => kv.1 ∈ fields k) m))).
  - by rewrite map_filter_empty.
  - intros a v m r Hm ->. cbn [cls]. case_decide as Ha.
    + rewrite elem_of_list_to_set in Ha. unfold setattr. cbn [cls attrs].
      by rewrite map_filter_insert_True.
    + rewrite elem_of_list_to_set in Ha.
      by rewrite map_filter_insert_False, delete_id.
Qed.

Section RecordFacts.
Context {uc : UcProt}.

Lemma construct_cases (k : kind) (kwargs : gmap string value) :
  "self" ∉ dom kwargs ->
  match k with
  | Section_ =>
      construct k kwargs =
        match kwargs !! "perm" with
        | None => Raise AttributeError
        | Some p =>
            perm ← perm2uc_v p;
            Ok (Obj k (<["perm" := VInt perm]> (accepted k kwargs)))
        end
  | Xref_ =>
      construct k kwargs =
        match kwargs !! "from" with
        | None => Raise KeyError
        | Some f => Ok (Obj k (<["fromaddr" := f]> (accepted k kwargs)))
        end
  | _ => construct k kwargs = Ok (Obj k (accepted k kwargs))
  end.
Proof.
  intros Hself. unfold construct. rewrite decide_False by done.
  destruct k; try (by rewrite R2Data_init_accepted).
  - unfold Section_init. rewrite R2Data_init_accepted.
    unfold getattr. cbn [attrs cls class_default].
    rewrite accepted_lookup, decide_True by (apply list_elem_of_In; simpl; auto 10).
    destruct (kwargs !! "perm") as [p|]; [| done].
    cbn [mbind result_bind]. by destruct (perm2uc_v p).
  - unfold Xref_init, getitem. rewrite R2Data_init_accepted.
    by destruct (kwargs !! "from").
Qed.

(** C7, as amended: for a mapping without a field named [self], the
    constructors of [Function], [String], [Symbol] and [Flag] raise
    nothing and set exactly the attributes of the mapping whose names the
    record declares, with the mapping's values; every other field is
    dropped.  [Section] does the same and then replaces [perm] by its
    bitmask, raising when the mapping has no [perm]; [Xref] does the same
    and then sets [fromaddr] from the field [from], raising when the
    mapping has none. *)
Theorem construct_accepts_declared (k : kind) (kwargs : gmap string value) :
  "self" ∉ dom kwargs ->
  (∀ a, accepted k kwargs !! a
        = if decide (a ∈ fields k) then kwargs !! a else None)
  ∧ match k with
    | Section_ =>
        construct k kwargs =
          match kwargs !! "perm" with
          | None => Raise AttributeError
          | Some p =>
              perm ← perm2uc_v p;
              Ok (Obj k (<["perm" := VInt perm]> (accepted k kwargs)))
          end
    | Xref_ =>
        construct k kwargs =
          match kwargs !! "from" with
          | None => Raise KeyError
          | Some f => Ok (Obj k (<["fromaddr" := f]> (accepted k kwargs)))
          end
    | _ => construct k kwargs = Ok (Obj k (accepted k kwargs))
    end.
Proof.
  intros Hself. split; [apply accepted_lookup | by apply construct_cases].
Qed.

End RecordFacts.

Lemma construct_accepts_declared_example :
  @construct unicorn Flag_
    (<["offset" := VInt 16]> (<["name" := VStr "start"]> (<["realname" := VStr "_start"]> ∅)))
  = Ok (Obj Flag_ (<["offset" := VInt 16]> (<["name" := VStr "start"]> ∅))).
Proof.
  destruct (@construct_accepts_declared unicorn Flag_
              (<["offset" := VInt 16]> (<["name" := VStr "start"]> (<["realname" := VStr "_start"]> ∅))))
    as [_ H]; [apply not_elem_of_dom; vm_compute; reflexivity |].
  rewrite H. vm_compute. reflexivity.
Defined.

(** An [Xref] built from a mapping that has [from] gets the attribute
    [fromaddr], which is no field of the mapping; built from a mapping
    without [from] it raises. *)
Lemma Xref_from_not_accepted :
  ¬ (∀ (k : kind) (kwargs : gmap string value),
       @construct unicorn k kwargs = Ok (Obj k (accepted k kwargs))).
Proof.
  intros H. specialize (H Xref_ (<["from" := VInt 5]> ∅)).
  assert (@construct unicorn Xref_ (<["from" := VInt 5]> ∅)
          = Ok (Obj Xref_ (<["fromaddr" := VInt 5]> ∅))) as Hrun
    by (vm_compute; reflexivity).
  assert (accepted Xref_ (<["from" := VInt 5]> ∅) !! "fromaddr" = None) as Hacc.
  { rewrite accepted_lookup. case_decide; [| done].
    by rewrite lookup_insert_ne, lookup_empty. }
  revert H Hrun Hacc.
  generalize (@construct unicorn Xref_ (<["from" := VInt 5]> ∅)).
  generalize (accepted Xref_ (<["from" := VInt 5]> ∅)).
  intros m r -> [= ->]. by rewrite lookup_insert_eq.
Qed.

Example Xref_without_from : @construct unicorn Xref_ ∅ = Raise KeyError.
Proof. vm_compute. reflexivity. Qed.

Example Section_without_perm :
  @construct unicorn Section_ (<["name" := VStr ".text"]> ∅) = Raise AttributeError.
Proof. vm_compute. reflexivity. Qed.

Example Flag_with_self :
  @construct unicorn Flag_ (<["self" := VInt 1]> ∅) = Raise TypeError.
Proof. vm_compute. reflexivity. Qed.

(** ** The analysis gate *)

Lemma aaa_count_app (l1 l2 : list string) :
  aaa_count (l1 ++ l2)%list = (aaa_count l1 + aaa_count l2)%nat.
Proof. unfold aaa_count. by rewrite filter_app, length_app. Qed.

Lemma aaa_count_none (l : list string) : "aaa" ∉ l -> aaa_count l = 0%nat.
Proof.
  unfold aaa_count. induction l as [|c l IH]; [done |].
  intros H. apply not_elem_of_cons in H as [Hc Hl].
  rewrite filter_cons_False by (intros ->; done). by apply IH.
Qed.

Lemma aaa_count_query (a : access) : aaa_count [query a] = 0%nat.
Proof. by destruct a. Qed.

(** No command of the set-up is the analysis command. *)
Lemma setup_commands_no_aaa (t : target) : "aaa" ∉ setup_commands t.
Proof.
  assert (Hcode : ∀ hex arch, "aaa" ∉ _setup_code hex arch).
  { intros hex arch H. unfold _setup_code in H.
    apply elem_of_cons in H as [H | H]; [discriminate H |].
    destruct arch as [[arch_name bits]|]; [| by apply elem_of_nil in H].
    apply list_elem_of_singleton in H. discriminate H. }
  assert (Hfile : ∀ path, "aaa" ∉ _setup_file path).
  { intros path H. by apply elem_of_nil in H. }
  destruct t as [[hex|] path arch | hex | path]; simpl; [case_bool_decide | ..]; auto.
Qed.

Section Gate.
Context {uc : UcProt}.
Variable engine : list string -> string -> string.
Variable json_loads : string -> result value.

Abbreviation step := (step engine json_loads).
Abbreviation run := (run engine json_loads).
Abbreviation session := (session engine json_loads).

(** An access to a stored view leaves the session as it is. *)
Lemma step_cached (a : access) (self : R2) :
  cached a self = true -> step a self = self.
Proof.
  destruct a; simpl; intros H; apply bool_decide_eq_true in H as [v Hv];
    unfold functions, flags, xrefs, cached_property; by rewrite Hv.
Qed.

(** An access to a view that is not stored sends the analysis command if
    the flag is unset, sets the flag, and then sends its query. *)
Lemma step_fresh (a : access) (self : R2) :
  cached a self = false ->
  analyzed (step a self) = true
  ∧ issued (step a self)
    = (issued self ++ (if analyzed self then [] else ["aaa"]) ++ [query a])%list.
Proof.
  destruct a; simpl; intros H; apply bool_decide_eq_false in H;
    rewrite <- eq_None_not_Some in H.
  all: unfold functions, flags, xrefs, cached_property; rewrite H.
  all: unfold aaa, _cmdj, _cmd, lift, set_analyzed, set_functions, set_flags, set_xrefs.
  all: unfold mbind, M_bind, mret, M_ret; cbn [fst snd analyzed issued].
  all: destruct (analyzed self) eqn:Ha; cbn [fst snd analyzed issued].
  all: repeat match goal with
         | |- context [match ?r with Ok _ => _ | Raise _ => _ end] =>
             destruct r; cbn [fst snd analyzed issued]
         end.
  all: rewrite <- ?(assoc_L (++)); auto.
Qed.

Lemma gate_inv_step (a : access) (self : R2) :
  gate_inv self -> gate_inv (step a self).
Proof.
  intros [Hle Hunset]. destruct (cached a self) eqn:Hc.
  { by rewrite step_cached. }
  destruct (step_fresh a self Hc) as [Han Hiss]. split.
  - rewrite Hiss, !aaa_count_app, aaa_count_query.
    destruct (analyzed self) eqn:Ha.
    + simpl. lia.
    + destruct (Hunset eq_refl) as [H0 _]. rewrite H0. simpl. lia.
  - rewrite Han. done.
Qed.

Lemma session_gate_inv (self : R2) : session self -> gate_inv self.
Proof.
  induction 1 as [t | a self _ IH].
  - pose proof (aaa_count_none _ (setup_commands_no_aaa t)) as H0.
    split; simpl.
    + rewrite H0. lia.
    + intros _. split; [done |]. by intros [].
  - by apply gate_inv_step.
Qed.

Lemma session_run (accs : list access) (self : R2) :
  session self -> session (run accs self).
Proof.
  revert self. induction accs as [|a accs IH]; intros self Hs; [done |].
  apply IH. by constructor.
Qed.

(** C2: in every session, after every sequence of accesses to the
    functions, flags and xrefs views, the analysis command has been sent
    at most once.  An access made while the flag is set sends no analysis
    command; an access made while it is unset sends the command, then its
    query, and leaves the flag set. *)
Theorem aaa_at_most_once (self : R2) :
  session self ->
  (∀ accs, (aaa_count (issued (run accs self)) ≤ 1)%nat)
  ∧ (∀ a,
       (analyzed self = true ->
          aaa_count (issued (step a self)) = aaa_count (issued self)
          ∧ analyzed (step a self) = true)
       ∧ (analyzed self = false ->
          issued (step a self) = (issued self ++ ["aaa"; query a])%list
          ∧ analyzed (step a self) = true)).
Proof.
  intros Hs. split.
  - intros accs. by apply session_gate_inv, session_run.
  - intros a. destruct (session_gate_inv self Hs) as [_ Hunset].
    split; intros Ha.
    + destruct (cached a self) eqn:Hc.
      { by rewrite step_cached. }
      destruct (step_fresh a self Hc) as [Han Hiss].
      rewrite Hiss, Ha, !aaa_count_app, aaa_count_query. simpl.
      split; [lia | done].
    + destruct (Hunset Ha) as [_ Hc].
      destruct (step_fresh a self (Hc a)) as [Han Hiss].
      by rewrite Hiss, Ha.
Qed.

End Gate.

(** ** The flags view *)

Section FlagsView.
Context {uc : UcProt}.
Variable engine : list string -> string -> string.
Variable json_loads : string -> result value.

Lemma for_each_flags (dics : list (list (string * value))) :
  Forall (fun d => "self" ∉ dom (list_to_map d : gmap string value)) dics ->
  for_each (construct_from Flag_) (VDict <$> dics) = Ok (flag_record <$> dics).
Proof.
  induction 1 as [|d dics Hd _ IH]; [done |].
  cbn [fmap list_fmap for_each construct_from].
  change (list_fmap _ _ VDict dics) with (VDict <$> dics).
  change (list_fmap _ _ flag_record dics) with (flag_record <$> dics).
  rewrite (construct_cases Flag_ _ Hd), IH. done.
Qed.

(** The first access to the flags: the gate, the query, and the records
    of the reply stored as they come. *)
Lemma flags_fresh (self : R2) (reply : value) (view : list obj) :
  flags_cache self = None ->
  json_loads (engine (past_gate self) "fj") = Ok reply ->
  (l ← py_iter reply; for_each (construct_from Flag_) l) = Ok view ->
  flags engine json_loads self
  = (mkR2 true (past_gate self ++ ["fj"])%list
          (functions_cache self) (Some view) (xrefs_cache self),
     Ok view).
Proof.
  unfold past_gate. intros Hc Hj Hv.
  unfold flags, cached_property. rewrite Hc.
  unfold aaa, _cmdj, _cmd, lift, set_analyzed, set_flags.
  unfold mbind in Hv.
  cbv beta iota delta [mbind M_bind mret M_ret].
  destruct (analyzed self) eqn:Ha;
    cbn [fst snd analyzed issued functions_cache flags_cache xrefs_cache];
    by rewrite Hj, Hv.
Qed.

End FlagsView.

Lemma sorted_by_offset_fmap (typed : list Flag) :
  sorted_by_offset typed <-> Sorted Z.le (offset <$> typed).
Proof.
  unfold sorted_by_offset. induction typed as [|f typed IH]; [by split; constructor |].
  cbn [fmap list_fmap]. fold (offset <$> typed). split; intros H.
  - apply Sorted_inv in H as [Hs Hh]. constructor; [by apply IH |].
    destruct Hh; constructor; done.
  - apply Sorted_inv in H as [Hs Hh]. constructor; [by apply IH |].
    destruct typed; [constructor |]. apply HdRel_inv in Hh. by constructor.
Qed.

(** A flag read at its types carries the offset stored on the instance. *)
Lemma Flag_of_obj_offset (m : gmap string value) (f : Flag) :
  Flag_of_obj (Obj Flag_ m) = Some f -> m !! "offset" = Some (VInt (offset f)).
Proof.
  unfold Flag_of_obj, getattr. cbn [cls attrs].
  destruct (m !! "offset") as [[]|]; cbn; try done;
    repeat case_match; intros; by simplify_eq.
Qed.

Lemma typed_flags_offsets (dics : list (list (string * value))) (typed : list Flag) :
  typed_flags (flag_record <$> dics) = Some typed ->
  (fun f => Some (VInt (offset f))) <$> typed
  = (fun d => (list_to_map d : gmap string value) !! "offset") <$> dics.
Proof.
  unfold typed_flags. rewrite mapM_Some. revert typed.
  induction dics as [|d dics IH]; intros typed H.
  - by apply Forall2_nil_inv_l in H as ->.
  - cbn [fmap list_fmap] in H. apply Forall2_cons_inv_l in H as (f & typed' & Hf & H & ->).
    cbn [fmap list_fmap]. f_equal; [| by apply IH].
    apply Flag_of_obj_offset in Hf. rewrite accepted_lookup in Hf.
    by rewrite decide_True in Hf by (apply list_elem_of_In; simpl; auto).
Qed.

Section FlagsOrder.
Context {uc : UcProt}.
Variable engine : list string -> string -> string.
Variable json_loads : string -> result value.

(** C5, as amended: when the engine's reply to the flags query is a list
    of field mappings (none with a field named [self]), the cached flags
    view holds one [Flag] per mapping, in the order of the reply and with
    the reply's offsets; nothing reorders it, so it is sorted ascending by
    offset exactly when the reply is. *)
Theorem flags_view_in_engine_order (self : R2) (dics : list (list (string * value))) :
  flags_cache self = None ->
  json_loads (engine (past_gate self) "fj") = Ok (VList (VDict <$> dics)) ->
  Forall (fun d => "self" ∉ dom (list_to_map d : gmap string value)) dics ->
  (flags engine json_loads self).2 = Ok (flag_record <$> dics)
  ∧ flags_cache (flags engine json_loads self).1 = Some (flag_record <$> dics)
  ∧ (∀ typed zs,
       typed_flags (flag_record <$> dics) = Some typed ->
       (fun d => (list_to_map d : gmap string value) !! "offset") <$> dics
       = (fun z => Some (VInt z)) <$> zs ->
       offset <$> typed = zs
       ∧ (sorted_by_offset typed <-> Sorted Z.le zs)).
Proof.
  intros Hc Hj Hself.
  rewrite (flags_fresh engine json_loads self _ (flag_record <$> dics) Hc Hj)
    by (cbn [py_iter mbind result_bind]; by apply for_each_flags).
  split; [done | split; [done |]].
  intros typed zs Ht Hzs. apply typed_flags_offsets in Ht. rewrite Hzs in Ht.
  assert (offset <$> typed = zs) as Hoff.
  { clear -Ht. revert zs Ht. induction typed as [|f typed IH]; intros [|z zs] H;
      cbn [fmap list_fmap] in *; simplify_eq; [done |].
    f_equal. by apply IH. }
  split; [done |]. by rewrite sorted_by_offset_fmap, Hoff.
Qed.

End FlagsOrder.

Lemma two_flags_session :
  @session unicorn echo_engine two_flags_loads (R2_init (TBytes "00")).
Proof. apply session_new. Defined.

Lemma flags_view_in_engine_order_example :
  (@flags unicorn echo_engine two_flags_loads (R2_init (TBytes "00"))).2
  = Ok two_flags_view.
Proof.
  destruct (@flags_view_in_engine_order unicorn echo_engine two_flags_loads
              (R2_init (TBytes "00"))
              [[("offset", VInt 32); ("name", VStr "mid")];
               [("offset", VInt 16); ("name", VStr "start")]]) as [H _].
  - reflexivity.
  - reflexivity.
  - repeat constructor; apply not_elem_of_dom; vm_compute; reflexivity.
  - exact H.
Defined.

(** The engine may list a higher flag first; the view then holds it
    first. *)
Lemma flags_view_unsorted :
  ¬ (∀ (engine : list string -> string -> string)
       (json_loads : string -> result value) (self : R2) (view : list obj),
       @session unicorn engine json_loads self ->
       (@flags unicorn engine json_loads self).2 = Ok view ->
       ∃ typed, typed_flags view = Some typed ∧ sorted_by_offset typed).
Proof.
  intros H.
  destruct (H echo_engine two_flags_loads (R2_init (TBytes "00"))
              two_flags_view two_flags_session)
    as (typed & Ht & Hs).
  - vm_compute. reflexivity.
  - assert (typed_flags two_flags_view
            = Some [mkFlag 32 "mid" 0; mkFlag 16 "start" 0]) as Hrun
      by (vm_compute; reflexivity).
    revert Ht Hrun. generalize (typed_flags two_flags_view).
    intros o -> [= ->].
    apply Sorted_inv in Hs as [_ Hh]. apply HdRel_inv in Hh. simpl in Hh. lia.
Qed.

Lemma aaa_at_most_once_example :
  (aaa_count (issued (@run unicorn echo_engine two_flags_loads
                        [GetFlags; GetXrefs; GetFlags; GetFunctions]
                        (R2_init (TBytes "00")))) ≤ 1)%nat.
Proof.
  destruct (@aaa_at_most_once unicorn echo_engine two_flags_loads
              (R2_init (TBytes "00")) two_flags_session) as [H _].
  apply H.
Defined.

Example gate_trace :
  issued (@run unicorn echo_engine two_flags_loads
            [GetFlags; GetXrefs; GetFlags; GetFunctions]
            (R2_init (TBytes "00")))
  = ["wx 00"; "aaa"; "fj"; "axj"; "aflj"].
Proof. vm_compute. reflexivity. Qed.

(** * Further properties of the code *)

(** ** The resolver on any address *)

(** X1: on a view sorted ascending by offset, [at] of an address at or above
    the first flag returns the nearest preceding flag: its offset is at most
    the address, every later flag lies above the address, no flag at or
    below the address has a greater offset, and the residual is not
    negative. *)
Theorem at_nearest_preceding (flags : list Flag) (first : Flag) (a : Z) :
  sorted_by_offset flags -> head flags = Some first -> offset first <= a ->
  ∃ i f, flags !! i = Some f
         ∧ at_ flags a = Ok (f, a - offset f)
         ∧ 0 <= a - offset f
         ∧ (∀ j g, (i < j)%nat -> flags !! j = Some g -> a < offset g)
         ∧ (∀ g, g ∈ flags -> offset g <= a -> offset g <= offset f).
Proof.
  intros Hs Hfirst Hle.
  destruct (bisect_right_flags flags a Hs) as (idx & Hidx & Hlen & Hlo & Hhi).
  rewrite head_lookup in Hfirst.
  destruct idx as [|i].
  { pose proof (Hhi 0%nat first ltac:(lia) Hfirst). lia. }
  destruct (lookup_lt_is_Some_2 flags i) as [f Hf]; [lia |].
  pose proof (Hlo i f ltac:(lia) Hf) as Hfa.
  exists i, f. split; [done |]. split.
  { apply (at_index flags a (S i) f Hidx).
    replace (Z.of_nat (S i) - 1) with (Z.of_nat i) by lia.
    by apply py_index_nonneg. }
  split; [lia |]. split.
  - intros j g Hj Hg. apply (Hhi j g); [lia | done].
  - intros g Hg Hga. apply list_elem_of_lookup in Hg as [j Hj].
    destruct (decide (j ≤ i)%nat) as [E|E].
    + by apply (sorted_by_offset_lookup flags j i g f).
    + pose proof (Hhi j g ltac:(lia) Hj). lia.
Qed.

Lemma at_nearest_preceding_example :
  at_ [mkFlag 16 "start" 0; mkFlag 32 "mid" 0] 100 = Ok (mkFlag 32 "mid" 0, 68).
Proof.
  destruct (at_nearest_preceding [mkFlag 16 "start" 0; mkFlag 32 "mid" 0]
              (mkFlag 16 "start" 0) 100)
    as (i & f & Hf & Hat & _ & Hlater & _);
    [repeat constructor; simpl; lia | reflexivity | simpl; lia |].
  destruct i as [|[|i]]; simpl in Hf.
  - pose proof (Hlater 1%nat (mkFlag 32 "mid" 0) ltac:(lia) eq_refl) as H.
    simpl in H. lia.
  - injection Hf as <-. exact Hat.
  - discriminate Hf.
Defined.

(** X2: on a view without flags [at] and [resolve] raise [IndexError] for
    every address, and an empty view is the only one on which [at]
    raises. *)
Theorem at_raises_iff_empty (a : Z) :
  at_ [] a = Raise IndexError
  ∧ resolve [] a = Raise IndexError
  ∧ (∀ flags e, at_ flags a = Raise e -> flags = []).
Proof.
  split; [done |]. split; [done |].
  intros flags e H. destruct flags as [|f flags]; [done |].
  destruct (at_total (f :: flags) a) as [r Hr]; [done |]. congruence.
Qed.

(** ** More on [Section.perm2uc] *)

Lemma sum_Z_Permutation (l1 l2 : list Z) : l1 ≡ₚ l2 -> sum_Z l1 = sum_Z l2.
Proof.
  induction 1 as [| x l1 l2 _ IH | x y l | l1 l2 l3 _ IH1 _ IH2];
    rewrite ?sum_Z_cons; [done | lia | lia | congruence].
Qed.

Lemma list_ascii_app (s t : string) :
  String.list_ascii_of_string (s +:+ t)
  = (String.list_ascii_of_string s ++ String.list_ascii_of_string t)%list.
Proof. induction s as [|c s IH]; [done |]. cbn. by rewrite <- IH. Qed.

Lemma sum_Z_app (l1 l2 : list Z) : sum_Z (l1 ++ l2)%list = sum_Z l1 + sum_Z l2.
Proof.
  induction l1 as [|z l1 IH]; [done |]. cbn [app]. rewrite !sum_Z_cons, IH. lia.
Qed.

(** X3: the conversion does not depend on the order of the characters: two
    strings with the same characters, in any order, convert to the same
    value, and a concatenation converts to the sum of the parts (less the
    start value counted twice). *)
Theorem perm2uc_order_irrelevant {uc : UcProt} :
  (∀ s t : string,
     String.list_ascii_of_string s ≡ₚ String.list_ascii_of_string t ->
     perm2uc s = perm2uc t)
  ∧ (∀ s t : string, perm2uc (s +:+ t) = perm2uc s + perm2uc t - UC_PROT_NONE).
Proof.
  split.
  - intros s t H. rewrite !perm2uc_sum. f_equal.
    apply sum_Z_Permutation. by apply fmap_Permutation.
  - intros s t. rewrite !perm2uc_sum, list_ascii_app, fmap_app, sum_Z_app. lia.
Qed.

(** ** Reading the attributes of a constructed record *)

Section RecordReads.
Context {uc : UcProt}.

(** X4: a [Function], [String], [Symbol] or [Flag] built from a mapping
    without a field named [self] reads, at each declared attribute, the
    mapping's value when the mapping has the field, else the default of the
    class ([''] for the name and [0] for the size of a [Flag], [None] for
    the section of a [String]), and raises [AttributeError] when there is
    neither: a [Flag] built without [offset] has no offset. *)
Theorem construct_getattr (k : kind) (kwargs : gmap string value) :
  "self" ∉ dom kwargs -> k ≠ Section_ -> k ≠ Xref_ ->
  ∃ o, construct k kwargs = Ok o
       ∧ ∀ a, a ∈ fields k ->
              getattr o a =
                match kwargs !! a with
                | Some v => Ok v
                | None =>
                    match class_default k a with
                    | Some v => Ok v
                    | None => Raise AttributeError
                    end
                end.
Proof.
  intros Hself Hsec Hxref. exists (Obj k (accepted k kwargs)). split.
  - pose proof (construct_cases k kwargs Hself) as H. by destruct k.
  - intros a Ha. unfold getattr. cbn [attrs cls].
    by rewrite accepted_lookup, decide_True.
Qed.

(** X5: building a [Section] from a mapping whose [perm] is a string stores
    the bitmask of that string as [perm]; when [perm] is [None], a boolean
    or a number the conversion cannot iterate it and the construction raises
    [TypeError]. *)
Theorem Section_perm_by_type (kwargs : gmap string value) (p : value) :
  "self" ∉ dom kwargs -> kwargs !! "perm" = Some p ->
  match p with
  | VStr s =>
      ∃ o, construct Section_ kwargs = Ok o
           ∧ getattr o "perm" = Ok (VInt (perm2uc s))
           ∧ ∀ a, a ≠ "perm" -> attrs o !! a = accepted Section_ kwargs !! a
  | VNone | VBool _ | VInt _ => construct Section_ kwargs = Raise TypeError
  | _ => True
  end.
Proof.
  intros Hself Hp. pose proof (construct_cases Section_ kwargs Hself) as H.
  cbv beta iota in H. rewrite Hp in H.
  destruct p as [| b | z | s | l | d]; try done.
  rewrite perm2uc_v_str in H. cbn [mbind result_bind] in H.
  eexists. split; [exact H |]. split.
  - unfold getattr. cbn [attrs]. by rewrite lookup_insert_eq.
  - intros a Ha. cbn [attrs]. by rewrite lookup_insert_ne.
Qed.

End RecordReads.

Lemma construct_getattr_example :
  ∃ o, @construct unicorn Flag_ (<["name" := VStr "main"]> ∅) = Ok o
       ∧ getattr o "name" = Ok (VStr "main")
       ∧ getattr o "size" = Ok (VInt 0)
       ∧ getattr o "offset" = Raise AttributeError.
Proof.
  destruct (@construct_getattr unicorn Flag_ (<["name" := VStr "main"]> ∅))
    as (o & Ho & Hget); [apply not_elem_of_dom; vm_compute; reflexivity | done | done |].
  exists o. split; [exact Ho |].
  split; [| split].
  - rewrite (Hget "name") by (apply list_elem_of_In; simpl; auto).
    vm_compute. reflexivity.
  - rewrite (Hget "size") by (apply list_elem_of_In; simpl; auto).
    vm_compute. reflexivity.
  - rewrite (Hget "offset") by (apply list_elem_of_In; simpl; auto).
    vm_compute. reflexivity.
Defined.

Lemma Section_perm_by_type_example :
  @construct unicorn Section_ (<["perm" := VInt 5]> ∅) = Raise TypeError.
Proof.
  apply (@Section_perm_by_type unicorn (<["perm" := VInt 5]> ∅) (VInt 5));
    [apply not_elem_of_dom |]; vm_compute; reflexivity.
Defined.

(** ** The cached views *)


Section Views.
Context {uc : UcProt}.
Variable engine : list string -> string -> string.
Variable json_loads : string -> result value.


(** Behind the gate a query changes the flag and the commands sent, never
    what is stored. *)
Lemma aaa_query_state {A} (q : string) (f : value -> result A) (self : R2) :
  (aaa engine (v ← _cmdj engine json_loads q; lift (f v)) self).1
  = mkR2 true (past_gate self ++ [q])%list
         (functions_cache self) (flags_cache self) (xrefs_cache self).
Proof.
  unfold aaa, _cmdj, _cmd, lift, set_analyzed, past_gate.
  cbv beta iota zeta delta [mbind M_bind mret M_ret].
  destruct (analyzed self) eqn:Ha;
    cbn [fst snd analyzed issued functions_cache flags_cache xrefs_cache];
    destruct (json_loads _); cbn [fst snd]; try destruct (f _); cbn [fst snd];
    by rewrite ?Ha.
Qed.

Lemma cached_property_raise {A} (get : R2 -> option A) (set : A -> M unit)
    (fun_ : M A) (self : R2) (e : exn) :
  (∀ x s, (set x s).2 = Ok ()) ->
  (cached_property get set fun_ self).2 = Raise e ->
  get self = None ∧ (cached_property get set fun_ self).1 = (fun_ self).1.
Proof.
  intros Hset. unfold cached_property.
  destruct (get self) as [v0|]; [done |].
  cbv beta iota zeta delta [mbind M_bind mret M_ret].
  destruct (fun_ self) as [s1 [v1|e1]]; cbn [fst snd]; [| done].
  pose proof (Hset v1 s1) as Hok.
  destruct (set v1 s1) as [s2 r]. cbn [fst snd] in *. by subst r.
Qed.

(** An access that raises found nothing stored and stores nothing. *)
Lemma outcome_raise_cached (a : access) (self : R2) (e : exn) :
  outcome engine json_loads a self = Some e ->
  cached a self = false ∧ cached a (step engine json_loads a self) = false.
Proof.
  destruct a; unfold outcome, step, cached; intros H.
  all: match type of H with
       | match ?r with Ok _ => _ | Raise _ => _ end = _ =>
           destruct r as [v|e'] eqn:Hr; [done |]
       end.
  all: apply cached_property_raise in Hr as [Hc Hst]; [| by intros x s].
  all: unfold functions, flags, xrefs; rewrite Hst, aaa_query_state.
  all: cbn [functions_cache flags_cache xrefs_cache]; rewrite Hc.
  all: split; apply bool_decide_eq_false; by intros [? ?].
Qed.

(** X7: an access that raises stores no view, yet leaves the analysis flag
    set; the next access to the same view sends the view's query again, and
    only that. *)
Theorem failed_access_retried (a : access) (self : R2) (e : exn) :
  outcome engine json_loads a self = Some e ->
  let self' := step engine json_loads a self in
  cached a self' = false
  ∧ analyzed self' = true
  ∧ issued (step engine json_loads a self') = (issued self' ++ [query a])%list.
Proof.
  intros H. destruct (outcome_raise_cached a self e H) as [Hc Hc'].
  cbv zeta. split; [done |].
  destruct (step_fresh engine json_loads a self Hc) as [Han _].
  split; [done |].
  destruct (step_fresh engine json_loads a _ Hc') as [_ Hiss].
  by rewrite Hiss, Han.
Qed.

End Views.

Lemma failed_access_retried_example :
  issued (@run unicorn echo_engine two_flags_loads [GetXrefs; GetXrefs]
            (R2_init (TStr "a.out")))
  = ["aaa"; "axj"; "axj"].
Proof.
  destruct (@failed_access_retried unicorn echo_engine two_flags_loads GetXrefs
              (R2_init (TStr "a.out")) JSONDecodeError) as (_ & _ & H);
    [vm_compute; reflexivity |].
  cbn [run foldl]. rewrite H. vm_compute. reflexivity.
Defined.

(** ** Dictionaries built by a comprehension *)

Lemma py_eqb_refl (k : value) : hashable k = true -> py_eqb k k = true.
Proof.
  destruct k; simpl; try done; intros _.
  - apply Z.eqb_refl.
  - apply Z.eqb_refl.
  - by apply bool_decide_eq_true.
Qed.

Lemma py_eqb_sym (a b : value) : py_eqb a b = py_eqb b a.
Proof.
  destruct a, b; simpl; try done; try apply Z.eqb_sym.
  apply bool_decide_ext. by split.
Qed.

Lemma py_eqb_trans (a b c : value) :
  py_eqb a b = true -> py_eqb b c = true -> py_eqb a c = true.
Proof.
  destruct a, b, c; simpl; try done;
    rewrite ?bool_decide_eq_true, ?Z.eqb_eq; try congruence; lia.
Qed.

Lemma dict_lookup_set_eq {V} (k : value) (v : V) (d : list (value * V)) :
  hashable k = true -> dict_lookup k (dict_set k v d) = Some v.
Proof.
  intros Hk. induction d as [|[k' v'] d IH]; simpl.
  - by rewrite py_eqb_refl.
  - destruct (py_eqb k' k) eqn:E; simpl; by rewrite E.
Qed.

Lemma dict_lookup_set_ne {V} (k k' : value) (v : V) (d : list (value * V)) :
  py_eqb k' k = false -> dict_lookup k (dict_set k' v d) = dict_lookup k d.
Proof.
  intros Hne. induction d as [|[e ve] d IH]; simpl.
  - by rewrite Hne.
  - destruct (py_eqb e k') eqn:E; simpl.
    + destruct (py_eqb e k) eqn:E'; [| done].
      rewrite (py_eqb_trans k' e k) in Hne; [done | by rewrite py_eqb_sym | done].
    + destruct (py_eqb e k); [done | apply IH].
Qed.

Section Comprehension.
Context {A V : Type} (key : A -> result value) (val : A -> result V).

Lemma dict_comp_cons (x : A) (l : list A) (d0 d : list (value * V)) :
  dict_comp key val (x :: l) d0 = Ok d ->
  ∃ k v, key x = Ok k ∧ val x = Ok v ∧ hashable k = true
         ∧ dict_comp key val l (dict_set k v d0) = Ok d.
Proof.
  cbn [dict_comp]. unfold mbind, result_bind, dict_setitem.
  destruct (key x) as [k|]; [| done]. destruct (val x) as [v|]; [| done].
  destruct (hashable k) eqn:Hk; [| done]. intros H. by exists k, v.
Qed.

(** Later entries with other keys leave a lookup as it is. *)
Lemma dict_comp_lookup_other (k : value) (l : list A) (d0 d : list (value * V)) :
  (∀ y ky, y ∈ l -> key y = Ok ky -> py_eqb ky k = false) ->
  dict_comp key val l d0 = Ok d -> dict_lookup k d = dict_lookup k d0.
Proof.
  revert d0. induction l as [|x l IH]; intros d0 Hother H.
  - by injection H as <-.
  - apply dict_comp_cons in H as (kx & vx & Hkx & Hvx & _ & H).
    rewrite (IH _ (fun y ky Hy => Hother y ky (list_elem_of_further _ _ _ Hy)) H).
    apply dict_lookup_set_ne. apply (Hother x kx); [apply list_elem_of_here | done].
Qed.

(** The last element with a key is the one a lookup of that key finds. *)
Lemma dict_comp_lookup_last (k : value) (v : V) (l1 l2 : list A) (x : A)
    (d0 d : list (value * V)) :
  dict_comp key val (l1 ++ x :: l2) d0 = Ok d ->
  key x = Ok k -> val x = Ok v ->
  (∀ y ky, y ∈ l2 -> key y = Ok ky -> py_eqb ky k = false) ->
  dict_lookup k d = Some v.
Proof.
  revert d0. induction l1 as [|a l1 IH]; intros d0 H Hk Hv Hother.
  - apply dict_comp_cons in H as (k' & v' & Hk' & Hv' & Hh & H).
    rewrite Hk in Hk'. rewrite Hv in Hv'.
    injection Hk' as <-. injection Hv' as <-.
    rewrite (dict_comp_lookup_other k l2 _ d Hother H).
    by apply dict_lookup_set_eq.
  - cbn [app] in H. apply dict_comp_cons in H as (? & ? & _ & _ & _ & H). eauto.
Qed.

(** What holds of each stored pair, when it holds of each pair the
    comprehension makes and does not tell equal keys apart. *)
Lemma dict_comp_Forall (P : value -> V -> Prop) (l : list A)
    (d0 d : list (value * V)) :
  (∀ e k v, py_eqb e k = true -> P k v -> P e v) ->
  (∀ x k v, x ∈ l -> key x = Ok k -> val x = Ok v -> P k v) ->
  Forall (fun kv => P kv.1 kv.2) d0 ->
  dict_comp key val l d0 = Ok d ->
  Forall (fun kv => P kv.1 kv.2) d.
Proof.
  intros Hresp. revert d0. induction l as [|x l IH]; intros d0 Hmk Hd0 H.
  - by injection H as <-.
  - apply dict_comp_cons in H as (k & v & Hk & Hv & _ & H).
    apply (IH (dict_set k v d0)); [| | done].
    + intros y ky vy Hy. apply Hmk. by apply list_elem_of_further.
    + assert (HP : P k v) by (apply (Hmk x); [apply list_elem_of_here | done..]).
      clear -Hresp Hd0 HP. induction Hd0 as [|[e ve] d0 He Hd0 IH']; simpl.
      * by repeat constructor.
      * destruct (py_eqb e k) eqn:E; constructor; simpl in *; eauto.
Qed.

End Comprehension.

Lemma dict_comp_each {A V} (key : A -> result value) (val : A -> result V)
    (l : list A) (d0 d : list (value * V)) (x : A) :
  dict_comp key val l d0 = Ok d -> x ∈ l ->
  ∃ k v, key x = Ok k ∧ val x = Ok v ∧ hashable k = true.
Proof.
  revert d0. induction l as [|y l IH]; intros d0 H Hx.
  - by apply elem_of_nil in Hx.
  - apply dict_comp_cons in H as (k & v & Hk & Hv & Hh & H).
    apply elem_of_cons in Hx as [-> | Hx]; [by exists k, v | eauto].
Qed.

(** ** The views as dictionaries *)

(** An [Xref] carries as [fromaddr] the [from] of the mapping it was built
    from. *)
Lemma Xref_fromaddr {uc : UcProt} (dic : value) (k : value) (o : obj) :
  subscript dic "from" = Ok k -> construct_from Xref_ dic = Ok o ->
  getattr o "fromaddr" = Ok k.
Proof.
  destruct dic as [| | | | |d]; try done. cbn [subscript construct_from].
  destruct (list_to_map d !! "from") as [v|] eqn:Hfrom; [| done].
  intros [= ->] Ho.
  destruct (decide ("self" ∈ dom (list_to_map d : gmap string value))) as [Hs|Hs].
  { unfold construct in Ho. by rewrite decide_True in Ho. }
  pose proof (construct_cases Xref_ _ Hs) as H. cbv beta iota in H.
  rewrite Hfrom, Ho in H. injection H as ->.
  unfold getattr. cbn [attrs]. by rewrite lookup_insert_eq.
Qed.

(** A [Function] carries as [name] the [name] of the mapping it was built
    from. *)
Lemma Function_name {uc : UcProt} (dic : value) (k : value) (o : obj) :
  subscript dic "name" = Ok k -> construct_from Function dic = Ok o ->
  getattr o "name" = Ok k.
Proof.
  destruct dic as [| | | | |d]; try done. cbn [subscript construct_from].
  destruct (list_to_map d !! "name") as [v|] eqn:Hname; [| done].
  intros [= ->] Ho.
  destruct (decide ("self" ∈ dom (list_to_map d : gmap string value))) as [Hs|Hs].
  { unfold construct in Ho. by rewrite decide_True in Ho. }
  pose proof (construct_cases Function _ Hs) as H. cbv beta iota in H.
  rewrite Ho in H. injection H as ->.
  unfold getattr. cbn [attrs].
  rewrite accepted_lookup, decide_True by (apply list_elem_of_In; simpl; auto).
  by rewrite Hname.
Qed.

Section ViewsAsDicts.
Context {uc : UcProt}.
Variable engine : list string -> string -> string.
Variable json_loads : string -> result value.

Lemma cached_property_ok {A} (get : R2 -> option A) (set : A -> M unit)
    (fun_ : M A) (self : R2) (view : A) :
  (∀ x s, (set x s).2 = Ok ()) ->
  get self = None ->
  (cached_property get set fun_ self).2 = Ok view -> (fun_ self).2 = Ok view.
Proof.
  intros Hset Hg. unfold cached_property. rewrite Hg.
  cbv beta iota zeta delta [mbind M_bind mret M_ret].
  destruct (fun_ self) as [s1 [v1|e1]]; cbn [fst snd]; [| done].
  pose proof (Hset v1 s1) as Hok.
  destruct (set v1 s1) as [s2 r]. cbn [fst snd] in *. by subst r.
Qed.

Lemma aaa_query_result {A} (q : string) (f : value -> result A) (self : R2) :
  (aaa engine (v ← _cmdj engine json_loads q; lift (f v)) self).2
  = match json_loads (engine (past_gate self) q) with
    | Ok reply => f reply
    | Raise e => Raise e
    end.
Proof.
  unfold aaa, _cmdj, _cmd, lift, set_analyzed, past_gate.
  cbv beta iota zeta delta [mbind M_bind mret M_ret].
  destruct (analyzed self);
    cbn [fst snd analyzed issued functions_cache flags_cache xrefs_cache];
    by destruct (json_loads _).
Qed.

(** A view that is computed is what the comprehension makes of the decoded
    reply. *)
Lemma gated_view_result {A} (get : R2 -> option A) (set : A -> M unit)
    (q : string) (f : value -> result A) (self : R2) (view : A) :
  (∀ x s, (set x s).2 = Ok ()) ->
  get self = None ->
  (cached_property get set
     (aaa engine (v ← _cmdj engine json_loads q; lift (f v))) self).2 = Ok view ->
  ∃ reply, json_loads (engine (past_gate self) q) = Ok reply ∧ f reply = Ok view.
Proof.
  intros Hset Hg H. apply cached_property_ok in H; [| done..].
  rewrite aaa_query_result in H.
  destruct (json_loads _) as [reply|]; [| done]. by exists reply.
Qed.

(** X8: when the engine lists several cross-references with the same source
    address, the xrefs view keeps the last of them: looking the source
    address up (as [refrom] does) finds the record built from the last
    mapping with that [from], and that record carries the address as its
    [fromaddr]. *)
Theorem xrefs_last_edge_wins (self : R2) (l1 l2 : list value) (dic k : value)
    (view : list (value * obj)) :
  xrefs_cache self = None ->
  json_loads (engine (past_gate self) "axj") = Ok (VList (l1 ++ dic :: l2)) ->
  (xrefs engine json_loads self).2 = Ok view ->
  subscript dic "from" = Ok k ->
  (∀ y ky, y ∈ l2 -> subscript y "from" = Ok ky -> py_eqb ky k = false) ->
  ∃ o, construct_from Xref_ dic = Ok o
       ∧ dict_lookup k view = Some o
       ∧ getattr o "fromaddr" = Ok k.
Proof.
  intros Hc Hj Hview Hk Hlast.
  apply gated_view_result in Hview as (reply & Hreply & Hcomp);
    [| by intros x s | done].
  rewrite Hj in Hreply. injection Hreply as <-.
  cbn [py_iter mbind result_bind] in Hcomp.
  destruct (dict_comp_each _ _ _ _ _ dic Hcomp) as (k' & o & Hk' & Ho & _).
  { apply list_elem_of_In, in_elt. }
  exists o. split; [done |]. split.
  - exact (dict_comp_lookup_last (fun dic => subscript dic "from")
             (construct_from Xref_) k o l1 l2 dic [] view Hcomp Hk Ho Hlast).
  - by apply (Xref_fromaddr dic).
Qed.

(** X9: every function of the functions view is stored under its own name,
    and every cross-reference of the xrefs view under its own source
    address: the key of an entry equals the [name], respectively the
    [fromaddr], of the record it holds. *)
Theorem views_keyed_by_own_attribute (self : R2) :
  (∀ view, functions_cache self = None ->
           (functions engine json_loads self).2 = Ok view ->
           Forall (fun kv => ∃ k, getattr kv.2 "name" = Ok k
                                  ∧ py_eqb kv.1 k = true) view)
  ∧ (∀ view, xrefs_cache self = None ->
             (xrefs engine json_loads self).2 = Ok view ->
             Forall (fun kv => ∃ k, getattr kv.2 "fromaddr" = Ok k
                                    ∧ py_eqb kv.1 k = true) view).
Proof.
  split; intros view Hc Hview.
  all: apply gated_view_result in Hview as (reply & _ & Hcomp);
    [| by intros x s | done].
  all: destruct (py_iter reply) as [l|]; [| done].
  all: cbn [mbind result_bind] in Hcomp.
  - refine (dict_comp_Forall _ _
              (fun key o => ∃ k, getattr o "name" = Ok k ∧ py_eqb key k = true)
              l [] view _ _ (List.Forall_nil _) Hcomp).
    + intros e k o He (k' & Hget & Hk). exists k'. split; [done |].
      by apply (py_eqb_trans e k k').
    + intros x k o Hx Hk Ho. exists k. split; [by apply (Function_name x) |].
      destruct (dict_comp_each _ _ _ _ _ x Hcomp Hx) as (k2 & _ & Hk2 & _ & Hh).
      rewrite Hk in Hk2. injection Hk2 as <-. by apply py_eqb_refl.
  - refine (dict_comp_Forall _ _
              (fun key o => ∃ k, getattr o "fromaddr" = Ok k ∧ py_eqb key k = true)
              l [] view _ _ (List.Forall_nil _) Hcomp).
    + intros e k o He (k' & Hget & Hk). exists k'. split; [done |].
      by apply (py_eqb_trans e k k').
    + intros x k o Hx Hk Ho. exists k. split; [by apply (Xref_fromaddr x) |].
      destruct (dict_comp_each _ _ _ _ _ x Hcomp Hx) as (k2 & _ & Hk2 & _ & Hh).
      rewrite Hk in Hk2. injection Hk2 as <-. by apply py_eqb_refl.
Qed.

End ViewsAsDicts.

Lemma xrefs_last_edge_wins_example :
  ∃ o, @construct_from unicorn Xref_ (VDict [("from", VInt 16); ("addr", VInt 48)]) = Ok o
       ∧ dict_lookup (VInt 16) two_edges_view = Some o
       ∧ getattr o "fromaddr" = Ok (VInt 16).
Proof.
  apply (@xrefs_last_edge_wins unicorn echo_engine two_edges_loads
           (R2_init (TStr "a.out"))
           [VDict [("from", VInt 16); ("addr", VInt 32)]] []
           (VDict [("from", VInt 16); ("addr", VInt 48)]) (VInt 16) two_edges_view).
  - reflexivity.
  - reflexivity.
  - vm_compute. reflexivity.
  - vm_compute. reflexivity.
  - intros y ky Hy. by apply elem_of_nil in Hy.
Defined.

(** ** The map for the tracer *)

Lemma symsmap_ok (flags : list Flag) (d0 : list (value * string)) :
  ∃ d, dict_comp (fun flag => Ok (VInt (offset flag)))
         (fun flag => Ok (name flag)) flags d0 = Ok d.
Proof.
  revert d0. induction flags as [|f flags IH]; intros d0; [by exists d0 |].
  cbn [dict_comp mbind result_bind dict_setitem hashable]. apply IH.
Qed.

(** Among the flags at one offset of a sorted view, [at] finds the last. *)
Lemma last_flag_at_offset (flags : list Flag) (f : Flag) :
  sorted_by_offset flags -> f ∈ flags ->
  ∃ i g, flags !! i = Some g ∧ offset g = offset f
         ∧ (∀ j h, (i < j)%nat -> flags !! j = Some h -> offset f < offset h)
         ∧ at_ flags (offset f) = Ok (g, 0).
Proof.
  intros Hs Hin. apply list_elem_of_lookup in Hin as [i0 Hi0].
  destruct (bisect_right_flags flags (offset f) Hs) as (idx & Hidx & Hlen & Hlo & Hhi).
  destruct idx as [|i].
  { pose proof (Hhi i0 f ltac:(lia) Hi0). lia. }
  destruct (lookup_lt_is_Some_2 flags i) as [g Hg]; [lia |].
  assert (Hgf : offset g = offset f).
  { pose proof (Hlo i g ltac:(lia) Hg).
    destruct (decide (i0 ≤ i)%nat) as [E|E].
    - pose proof (sorted_by_offset_lookup flags i0 i f g Hs E Hi0 Hg). lia.
    - pose proof (Hhi i0 f ltac:(lia) Hi0). lia. }
  exists i, g. split; [done |]. split; [done |]. split.
  - intros j h Hj Hh. apply (Hhi j h); [lia | done].
  - replace 0 with (offset f - offset g) by lia.
    apply (at_index flags (offset f) (S i) g Hidx).
    replace (Z.of_nat (S i) - 1) with (Z.of_nat i) by lia.
    by apply py_index_nonneg.
Qed.

(** X10: the map that [enable_trace] hands to the tracer agrees with
    [resolve] on a view sorted ascending by offset: at the offset of a flag
    the map holds the name that [resolve] returns there with residual 0,
    and at an address that is no flag's offset the map holds nothing. *)
Theorem symsmap_agrees_with_resolve (flags : list Flag) :
  sorted_by_offset flags ->
  ∃ d, symsmap flags = Ok d
       ∧ (∀ f, f ∈ flags ->
               ∃ n, dict_lookup (VInt (offset f)) d = Some n
                    ∧ resolve flags (offset f) = Ok (n, 0))
       ∧ (∀ a, (∀ f, f ∈ flags -> offset f ≠ a) ->
               dict_lookup (VInt a) d = None).
Proof.
  intros Hs. destruct (symsmap_ok flags []) as [d Hd]. exists d.
  split; [done |]. split.
  - intros f Hf.
    destruct (last_flag_at_offset flags f Hs Hf) as (i & g & Hg & Hgf & Hlater & Hat).
    exists (name g). split; [| by apply resolve_of_at].
    unfold symsmap in Hd. rewrite <- (take_drop_middle flags i g Hg) in Hd.
    refine (dict_comp_lookup_last _ _ (VInt (offset f)) (name g) _ _ g [] d Hd _ eq_refl _).
    + by rewrite Hgf.
    + intros y ky Hy [= <-]. simpl. apply Z.eqb_neq.
      apply list_elem_of_lookup in Hy as [j Hj]. rewrite lookup_drop in Hj.
      pose proof (Hlater (S i + j)%nat y ltac:(lia) Hj). lia.
  - intros a Hno. unfold symsmap in Hd.
    rewrite (dict_comp_lookup_other (fun flag => Ok (VInt (offset flag)))
               (fun flag => Ok (name flag)) (VInt a) flags [] d); [done | | done].
    intros y ky Hy [= <-]. simpl. apply Z.eqb_neq. by apply Hno.
Qed.

Lemma symsmap_agrees_with_resolve_example :
  ∃ d, symsmap [mkFlag 16 "entry0" 0; mkFlag 16 "main" 0; mkFlag 32 "exit" 0] = Ok d
       ∧ dict_lookup (VInt 24) d = None.
Proof.
  destruct (symsmap_agrees_with_resolve
              [mkFlag 16 "entry0" 0; mkFlag 16 "main" 0; mkFlag 32 "exit" 0])
    as (d & Hd & _ & Hnone); [repeat constructor; simpl; lia |].
  exists d. split; [exact Hd |]. apply Hnone.
  intros f Hf. apply list_elem_of_In in Hf. simpl in Hf.
  destruct Hf as [<- | [<- | [<- | []]]]; simpl; lia.
Defined.

(** ** Reading memory *)

Lemma fromhex_byte (b : Byte.byte) (rest : string) :
  fromhex (byte_hex b +:+ rest)
  = match fromhex rest with Some bs => Some (b :: bs) | None => None end.
Proof. destruct b; cbv [byte_hex Byte.to_N]; reflexivity. Qed.

Lemma append_assoc (s t u : string) : (s +:+ t) +:+ u = s +:+ (t +:+ u).
Proof.
  induction s as [|c s IH]; [done |].
  change (String c ((s +:+ t) +:+ u) = String c (s +:+ (t +:+ u))). by rewrite IH.
Qed.

(** Decoding goes through the text of bytes and on with what follows. *)
Lemma fromhex_hex_app (bs : list Byte.byte) (rest : string) :
  fromhex (hex bs +:+ rest)
  = match fromhex rest with Some bs' => Some (bs ++ bs')%list | None => None end.
Proof.
  induction bs as [|b bs IH]; cbn [hex].
  - change (EmptyString +:+ rest) with rest. by destruct (fromhex rest).
  - rewrite append_assoc, fromhex_byte, IH. by destruct (fromhex rest).
Qed.

Lemma read_unfold (engine : list string -> string -> string) (addr size : Z)
    (self : R2) :
  read engine addr size self
  = (mkR2 (analyzed self)
          (issued self ++ ["p8 " +:+ pretty size +:+ " @ " +:+ pretty addr])%list
          (functions_cache self) (flags_cache self) (xrefs_cache self),
     fromhex (engine (issued self)
                ("p8 " +:+ pretty size +:+ " @ " +:+ pretty addr))).
Proof. done. Qed.

(** X11: [read] returns the bytes the engine dumps: when the reply to the
    dump command is the hexadecimal text of some bytes followed by a line
    feed, [read] returns exactly those bytes, whatever size was asked for;
    it sends that one command and leaves the analysis flag and the stored
    views as they are. *)
Theorem read_decodes_dump (engine : list string -> string -> string)
    (addr size : Z) (self : R2) (bs : list Byte.byte) :
  engine (issued self) ("p8 " +:+ pretty size +:+ " @ " +:+ pretty addr)
  = hex bs +:+ line_feed ->
  read engine addr size self
  = (mkR2 (analyzed self)
          (issued self ++ ["p8 " +:+ pretty size +:+ " @ " +:+ pretty addr])%list
          (functions_cache self) (flags_cache self) (xrefs_cache self),
     Some bs).
Proof.
  intros H. rewrite read_unfold, H, fromhex_hex_app.
  change (fromhex line_feed) with (Some (@nil Byte.byte)).
  cbv beta iota. by rewrite app_nil_r.
Qed.

(** Reading back the two bytes a session was set up with, from an engine
    that dumps them. *)
Lemma read_decodes_dump_example :
  read (fun _ _ => hex [Byte.x0a; Byte.xff] +:+ line_feed) 0 2
       (R2_init (TBytes (hex [Byte.x0a; Byte.xff])))
  = (mkR2 false ["wx 0aff"; "p8 2 @ 0"] None None None,
     Some [Byte.x0a; Byte.xff]).
Proof.
  exact (read_decodes_dump (fun _ _ => hex [Byte.x0a; Byte.xff] +:+ line_feed) 0 2
           (R2_init (TBytes (hex [Byte.x0a; Byte.xff]))) [Byte.x0a; Byte.xff] eq_refl).
Defined.

(** X12: [read] raises on a reply that is no hexadecimal text: after any
    number of well-formed bytes, a character that is neither whitespace nor
    a hexadecimal digit, or a digit that is not followed by a second digit,
    makes the decoding fail. *)
Theorem read_rejects_malformed (engine : list string -> string -> string)
    (addr size : Z) (self : R2) (bs : list Byte.byte) (c : ascii) (rest : string) :
  engine (issued self) ("p8 " +:+ pretty size +:+ " @ " +:+ pretty addr)
  = hex bs +:+ String c rest ->
  is_space c = false ->
  hex_value c = None
  ∨ rest = EmptyString
  ∨ (∃ c' rest', rest = String c' rest' ∧ hex_value c' = None) ->
  (read engine addr size self).2 = None.
Proof.
  intros H Hsp Hbad. rewrite read_unfold, H, fromhex_hex_app. cbn [snd].
  assert (fromhex (String c rest) = None) as ->; [| done].
  cbn [fromhex]. rewrite Hsp.
  destruct Hbad as [-> | [-> | (c' & rest' & -> & ->)]]; [done | | ].
  - by destruct (hex_value c).
  - by destruct (hex_value c).
Qed.

Lemma read_rejects_malformed_example :
  (read (fun _ _ => "0af") 0 2 (R2_init (TStr "a.out"))).2 = None.
Proof.
  apply (read_rejects_malformed (fun _ _ => "0af") 0 2 (R2_init (TStr "a.out"))
           [Byte.x0a] "f"%char EmptyString);
    [reflexivity | reflexivity | right; left; reflexivity].
Defined.

(** ** The commands of a session *)

Section Log.
Context {uc : UcProt}.
Variable engine : list string -> string -> string.
Variable json_loads : string -> result value.

(** X13: the commands a session has sent are those of its set-up, then,
    once a gated view has been touched, the analysis command followed by
    view queries only; before that nothing follows the set-up.  So the
    analysis precedes every query of a gated view. *)
Theorem session_commands (self : R2) :
  session engine json_loads self ->
  ∃ t qs, issued self
          = (setup_commands t ++ (if analyzed self then "aaa" :: qs else []))%list
          ∧ Forall (fun c => ∃ a, c = query a) qs.
Proof.
  induction 1 as [t | a self Hs (t & qs & Hiss & Hqs)].
  - exists t, []. split; [| constructor].
    cbn [R2_init issued analyzed]. by rewrite app_nil_r.
  - destruct (cached a self) eqn:Hc.
    { rewrite (step_cached engine json_loads a self Hc). by exists t, qs. }
    destruct (step_fresh engine json_loads a self Hc) as [Han Hiss'].
    rewrite Han, Hiss', Hiss. destruct (analyzed self).
    + exists t, (qs ++ [query a])%list. split.
      * cbn [app]. by rewrite <- !(assoc_L (++)).
      * apply Forall_app. split; [done |]. repeat constructor. by exists a.
    + exists t, [query a]. split.
      * by rewrite app_nil_r.
      * repeat constructor. by exists a.
Qed.

End Log.

Lemma session_commands_example :
  ∃ t qs, issued (@run unicorn echo_engine two_flags_loads [GetFlags; GetXrefs]
                    (R2_init (TBytes "00")))
          = (setup_commands t ++ "aaa" :: qs)%list
          ∧ Forall (fun c => ∃ a, c = query a) qs.
Proof.
  destruct (@session_commands unicorn echo_engine two_flags_loads
              (@run unicorn echo_engine two_flags_loads [GetFlags; GetXrefs]
                 (R2_init (TBytes "00"))))
    as (t & qs & H & Hqs).
  - apply session_step, session_step, session_new.
  - exists t, qs. split; [exact H | exact Hqs].
Defined.

(** ** Looking up a cross-reference by source *)

(** X14: on an xrefs view, whose keys are distinct as those of a dictionary
    are, [refrom] finds a cross-reference exactly when the view holds it
    under that address, and finds nothing exactly when the address is no
    key of the view. *)
Theorem refrom_lookup (xrefs : xrefs_view) (a : Z) :
  NoDup xrefs.*1 ->
  (∀ x, refrom xrefs a = Some x <-> (a, x) ∈ xrefs)
  ∧ (refrom xrefs a = None <-> a ∉ xrefs.*1).
Proof.
  induction xrefs as [|[k y] xrefs IH]; intros Hnd.
  - split; [intros x; split; [done | by intros ?%elem_of_nil] |].
    split; [intros _ ?%elem_of_nil; done | done].
  - cbn [fmap list_fmap fst] in Hnd. fold (xrefs.*1) in Hnd.
    apply NoDup_cons in Hnd as [Hk Hnd]. destruct (IH Hnd) as [IH1 IH2].
    cbn [refrom]. destruct (Z.eqb_spec k a) as [-> | Hne].
    + split.
      * intros x. rewrite elem_of_cons. split.
        { intros [= ->]. by left. }
        intros [[= ->] | Hin]; [done |].
        exfalso. apply Hk. apply list_elem_of_fmap. by exists (a, x).
      * split; [done |]. intros Hno. exfalso. apply Hno.
        cbn [fmap list_fmap fst]. apply list_elem_of_here.
    + split.
      * intros x. rewrite IH1, elem_of_cons. split; [by right |].
        intros [[= -> _] | Hin]; [done | done].
      * rewrite IH2. cbn [fmap list_fmap fst]. fold (xrefs.*1).
        rewrite not_elem_of_cons. split; [done | by intros [_ ?]].
Qed.

Lemma refrom_lookup_example :
  refrom [(16, mkXref "a" 16 "b" 32 "CALL"); (20, mkXref "c" 20 "d" 32 "CODE")] 24
  = None.
Proof.
  destruct (refrom_lookup
              [(16, mkXref "a" 16 "b" 32 "CALL"); (20, mkXref "c" 20 "d" 32 "CODE")] 24)
    as [_ [_ H]].
  - repeat constructor; intros H; apply list_elem_of_In in H; simpl in H;
      intuition discriminate.
  - apply H. intros Hin. apply list_elem_of_In in Hin. simpl in Hin.
    intuition discriminate.
Defined.
